(** * autocatfeeder: the feeding state machine of [final_proj.ino]

    A shallow embedding of the three FreeRTOS tasks of the automatic cat
    feeder ([resetFeederTask], [servoMotorTask], [adjustIntervalTask]) and of
    the whitelist lookup [isRecognized], together with the properties of the
    feeding window that the design document states about them.

    Peripherals (RTC, RFID reader, EEPROM, buttons) are inputs of a loop
    iteration; everything the code sends to a peripheral (servo positions,
    delays, serial and LCD output, EEPROM reads) is recorded in a trace. *)

From Stdlib Require Import String.
From Stdlib Require Import ZArith List Bool Lia.
Import ListNotations.
Local Open Scope Z_scope.

(** ** Constants of the sketch *)

Definition EEPROM_SIZE : Z := 64.
Definition MAX_USERS : Z := 10.
Definition UID_SIZE : Z := 4.

(** Arduino logic levels, as [digitalRead] returns them. *)
Definition LOW : Z := 0.
Definition HIGH : Z := 1.

(** ** Machine integers

    [int] is 32 bits wide on the ESP32.  [interval++] and [interval--] are
    the only arithmetic whose operand is not bounded by a constant of the
    program; they wrap around.  Loop counters ([i], [j], [pos]) stay within
    [-1 .. 46] and their arithmetic is written without the wrap. *)

Definition INT_MIN : Z := - 2 ^ 31.
Definition INT_MAX : Z := 2 ^ 31 - 1.

Definition wrap32 (z : Z) : Z := (z + 2 ^ 31) mod 2 ^ 32 - 2 ^ 31.

Definition in_int (z : Z) : Prop := INT_MIN <= z <= INT_MAX.

(** [byte] is [uint8_t]: conversion to it keeps the low eight bits. *)
Definition to_byte (z : Z) : Z := z mod 256.

(** ** Observable effects *)

Inductive event : Type :=
| EepromRead (addr : Z)             (* EEPROM.read(addr) *)
| ServoWrite (angle : Z)            (* myservo.write(angle) *)
| TaskDelay (ms : Z)                (* vTaskDelay(pdMS_TO_TICKS(ms)) *)
| SerialPrint (s : string)          (* Serial.print(text) *)
| SerialPrintInt (n : Z)            (* Serial.print(n) *)
| SerialPrintHex (n : Z)            (* Serial.print(n, HEX) *)
| SerialPrintln (s : string)        (* Serial.println(text) *)
| SerialPrintlnInt (n : Z)          (* Serial.println(n) *)
| SerialNewline                     (* Serial.println() *)
| LcdPrint (s : string)             (* lcd.print of text *)
| LcdPrintInt (n : Z)               (* lcd.print(interval) *)
| LcdClear.                         (* lcd.clear() *)

(** ** Peripherals as inputs *)

(** What [rtc.now()] hands back; only the two fields the sketch reads. *)
Record DateTime : Type := mkDateTime { minute : Z; second : Z }.

(** What one poll of the MFRC522 answers: the results of
    [PICC_IsNewCardPresent()] and [PICC_ReadCardSerial()] and the buffer
    [rfid.uid.uidByte]. *)
Record reader : Type := mkReader {
  PICC_IsNewCardPresent : bool;
  PICC_ReadCardSerial : bool;
  uidByte : list Z
}.

(** ** Global variables of the sketch *)

Record globals : Type := mkGlobals {
  nowDT : DateTime;
  pos : Z;
  beenFed : bool;
  interval : Z;
  oldIncrVal : Z;
  oldDecrVal : Z
}.

(** The values the globals are initialised with ([nowDT] is default
    constructed; its fields are not read before [rtc.now()] overwrites it). *)
Definition initial_globals : globals :=
  {| nowDT := mkDateTime 0 0; pos := 0; beenFed := false; interval := 5;
     oldIncrVal := LOW; oldDecrVal := LOW |}.

Definition set_nowDT (d : DateTime) (g : globals) : globals :=
  {| nowDT := d; pos := pos g; beenFed := beenFed g; interval := interval g;
     oldIncrVal := oldIncrVal g; oldDecrVal := oldDecrVal g |}.
Definition set_pos (p : Z) (g : globals) : globals :=
  {| nowDT := nowDT g; pos := p; beenFed := beenFed g; interval := interval g;
     oldIncrVal := oldIncrVal g; oldDecrVal := oldDecrVal g |}.
Definition set_beenFed (b : bool) (g : globals) : globals :=
  {| nowDT := nowDT g; pos := pos g; beenFed := b; interval := interval g;
     oldIncrVal := oldIncrVal g; oldDecrVal := oldDecrVal g |}.
Definition set_interval (n : Z) (g : globals) : globals :=
  {| nowDT := nowDT g; pos := pos g; beenFed := beenFed g; interval := n;
     oldIncrVal := oldIncrVal g; oldDecrVal := oldDecrVal g |}.
Definition set_oldIncrVal (v : Z) (g : globals) : globals :=
  {| nowDT := nowDT g; pos := pos g; beenFed := beenFed g; interval := interval g;
     oldIncrVal := v; oldDecrVal := oldDecrVal g |}.
Definition set_oldDecrVal (v : Z) (g : globals) : globals :=
  {| nowDT := nowDT g; pos := pos g; beenFed := beenFed g; interval := interval g;
     oldIncrVal := oldIncrVal g; oldDecrVal := v |}.

(** ** A monad for one task: globals, emitted events, failure *)

Inductive error : Type :=
| DivideByZero        (* [%] with a zero divisor *)
| OutOfFuel.          (* a loop of the model ran out of fuel *)

Inductive result (A : Type) : Type :=
| Ok (a : A)
| Err (e : error).
Arguments Ok {A} a.
Arguments Err {A} e.

Definition M (A : Type) : Type := globals -> result (A * globals * list event).

Definition ret {A : Type} (a : A) : M A := fun g => Ok (a, g, []).

Definition bind {A B : Type} (c : M A) (k : A -> M B) : M B :=
  fun g =>
    match c g with
    | Ok (a, g1, t1) =>
        match k a g1 with
        | Ok (b, g2, t2) => Ok (b, g2, t1 ++ t2)
        | Err e => Err e
        end
    | Err e => Err e
    end.

Definition fail {A : Type} (e : error) : M A := fun _ => Err e.
Definition gets {A : Type} (f : globals -> A) : M A := fun g => Ok (f g, g, []).
Definition modify (f : globals -> globals) : M unit := fun g => Ok (tt, f g, []).
Definition emit (e : event) : M unit := fun g => Ok (tt, g, [e]).
Definition when (b : bool) (c : M unit) : M unit := if b then c else ret tt.

Declare Scope task_scope.
Delimit Scope task_scope with task.
Notation "x <- c1 ;; c2" := (bind c1 (fun x => c2))
  (at level 61, c1 at next level, right associativity) : task_scope.
Notation "c1 ;; c2" := (bind c1 (fun _ => c2))
  (at level 61, right associativity) : task_scope.
Local Open Scope task_scope.

(** C's [%] on [int]: truncated remainder, undefined for a zero divisor. *)
Definition c_rem (a b : Z) : M Z :=
  if b =? 0 then fail DivideByZero else ret (Z.rem a b).

(** ** Whitelist lookup: [isRecognized] *)

(** [uid[j]] *)
Definition uid_at (uid : list Z) (j : Z) : Z := nth (Z.to_nat j) uid 0.

(** [uid[j] = v], for [j] within the array. *)
Definition uid_set (uid : list Z) (j : Z) (v : Z) : list Z :=
  firstn (Z.to_nat j) uid ++ v :: skipn (S (Z.to_nat j)) uid.

Section Whitelist.

(** The contents of the emulated EEPROM: the byte [EEPROM.read] returns at
    each address. *)
Variable EEPROM : Z -> Z.

Definition EEPROM_read (addr : Z) : M Z :=
  emit (EepromRead addr) ;; ret (EEPROM addr).

(** The inner loop, from [j] on; its value is [match] when the loop is
    left. *)
Fixpoint uid_match_loop (fuel : nat) (uid : list Z) (i j : Z) : M bool :=
  match fuel with
  | O => fail OutOfFuel
  | S fuel' =>
      if j <? UID_SIZE then
        b <- EEPROM_read (i * UID_SIZE + j) ;;
        if negb (b =? uid_at uid j) then ret false
        else uid_match_loop fuel' uid i (j + 1)
      else ret true
  end.

(** The outer loop, from [i] on. *)
Fixpoint isRecognized_loop (fuel : nat) (uid : list Z) (i : Z) : M bool :=
  match fuel with
  | O => fail OutOfFuel
  | S fuel' =>
      if i <? MAX_USERS then
        m <- uid_match_loop fuel uid i 0 ;;
        if m then ret true else isRecognized_loop fuel' uid (i + 1)
      else ret false
  end.

Definition isRecognized (fuel : nat) (uid : list Z) : M bool :=
  isRecognized_loop fuel uid 0.

(** *** [loadUIDsFromEEPROM] *)

(** The loop that fills the local [uid] and clears [emptySlot] at the first
    byte other than 0xFF. *)
Fixpoint load_slot_loop (fuel : nat) (i j : Z) (uid : list Z)
  (emptySlot : bool) : M (list Z * bool) :=
  match fuel with
  | O => fail OutOfFuel
  | S fuel' =>
      if j <? UID_SIZE then
        b <- EEPROM_read (i * UID_SIZE + j) ;;
        let uid' := uid_set uid j b in
        let emptySlot' :=
          if negb (uid_at uid' j =? 255) then false else emptySlot in
        load_slot_loop fuel' i (j + 1) uid' emptySlot'
      else ret (uid, emptySlot)
  end.

(** The loop that prints the bytes of [uid] in hexadecimal. *)
Fixpoint print_uid_loop (fuel : nat) (uid : list Z) (j : Z) : M unit :=
  match fuel with
  | O => fail OutOfFuel
  | S fuel' =>
      if j <? UID_SIZE then
        emit (SerialPrint (if uid_at uid j <? 16 then " 0" else " ")) ;;
        emit (SerialPrintHex (uid_at uid j)) ;;
        print_uid_loop fuel' uid (j + 1)
      else ret tt
  end.

(** The loop over the slots, from [i] on.  The local array [uid] is written
    at every index before it is read; it starts out as zeros here. *)
Fixpoint loadUIDs_loop (fuel : nat) (i : Z) : M unit :=
  match fuel with
  | O => fail OutOfFuel
  | S fuel' =>
      if i <? MAX_USERS then
        slot <- load_slot_loop fuel i 0 [0; 0; 0; 0] true ;;
        when (negb (snd slot))
          (emit (SerialPrint "User ") ;;
           emit (SerialPrintInt (i + 1)) ;;
           emit (SerialPrint ": ") ;;
           print_uid_loop fuel (fst slot) 0 ;;
           emit SerialNewline) ;;
        loadUIDs_loop fuel' (i + 1)
      else ret tt
  end.

Definition loadUIDsFromEEPROM (fuel : nat) : M unit :=
  emit (SerialPrintln "Loaded stored RFID users:") ;;
  loadUIDs_loop fuel 0.

End Whitelist.

(** ** The tasks, one iteration of [while (1)] each *)

(** *** [resetFeederTask] *)

Definition resetFeederTask_cycle (now : DateTime) : M unit :=
  modify (set_nowDT now) ;;
  d <- gets nowDT ;;
  let myMinute := to_byte (minute d) in
  let mySec := to_byte (second d) in
  n <- gets interval ;;
  r <- c_rem myMinute n ;;
  when ((r =? 0) && (mySec =? 0))
    (modify (set_beenFed false) ;; emit (SerialPrintln "Ready to Feed")) ;;
  emit (TaskDelay 100).

(** *** [servoMotorTask] *)

(** [for (pos = 0; pos <= 45; pos += 1)], entered after [pos = 0]. *)
Fixpoint sweep_up (fuel : nat) : M unit :=
  match fuel with
  | O => fail OutOfFuel
  | S fuel' =>
      p <- gets pos ;;
      if p <=? 45 then
        emit (ServoWrite p) ;;
        emit (TaskDelay 100) ;;
        modify (set_pos (p + 1)) ;;
        sweep_up fuel'
      else ret tt
  end.

(** [for (pos = 45; pos >= 0; pos -= 1)], entered after [pos = 45]. *)
Fixpoint sweep_down (fuel : nat) : M unit :=
  match fuel with
  | O => fail OutOfFuel
  | S fuel' =>
      p <- gets pos ;;
      if p >=? 0 then
        emit (ServoWrite p) ;;
        emit (TaskDelay 100) ;;
        modify (set_pos (p - 1)) ;;
        sweep_down fuel'
      else ret tt
  end.

Definition servoMotorTask_cycle (EEPROM : Z -> Z) (fuel : nat) (r : reader)
  : M unit :=
  if negb (PICC_IsNewCardPresent r) || negb (PICC_ReadCardSerial r) then
    emit (TaskDelay 50)
  else
    rec <- isRecognized EEPROM fuel (uidByte r) ;;
    when rec
      (fed <- gets beenFed ;;
       when (negb fed)
         (emit (SerialPrint "Granted") ;;
          modify (set_pos 0) ;;
          sweep_up fuel ;;
          modify (set_pos 45) ;;
          sweep_down fuel ;;
          modify (set_beenFed true))) ;;
    emit (TaskDelay 1000) ;;
    emit LcdClear.

(** *** [adjustIntervalTask] *)

Definition adjustIntervalTask_cycle (incrSignal decrSignal : Z) : M unit :=
  oldI <- gets oldIncrVal ;;
  when (negb (incrSignal =? oldI))
    (when (incrSignal =? LOW)
       (n <- gets interval ;;
        modify (set_interval (wrap32 (n + 1))) ;;
        n' <- gets interval ;;
        emit (SerialPrintlnInt n') ;;
        emit (LcdPrintInt n') ;;
        emit (LcdPrint " minutes")) ;;
     modify (set_oldIncrVal incrSignal)) ;;
  oldD <- gets oldDecrVal ;;
  when (negb (decrSignal =? oldD))
    (when (decrSignal =? LOW)
       (n <- gets interval ;;
        modify (set_interval (wrap32 (n - 1))) ;;
        n' <- gets interval ;;
        emit (SerialPrintlnInt n') ;;
        emit (LcdPrintInt n') ;;
        emit (LcdPrint " minutes")) ;;
     modify (set_oldDecrVal decrSignal)) ;;
  emit (TaskDelay 1000) ;;
  emit LcdClear.

(** ** [servoMotorTask] between its suspension points

    The task gives up the processor inside an iteration (the profile sleeps
    after every position), so the other two tasks run while a dispense is in
    progress.  [servo_step] is the same code cut at the loop heads: one step
    runs from one control point to the next. *)

Inductive servo_pc : Type :=
| AtPoll          (* head of [while (1)] *)
| AtSweepUp       (* test of the first [for] *)
| AtSweepDown     (* test of the second [for] *)
| AtCycleEnd.     (* the closing [vTaskDelay(1000); lcd.clear()] *)

Definition servo_step (EEPROM : Z -> Z) (fuel : nat) (r : reader)
  (pc : servo_pc) : M servo_pc :=
  match pc with
  | AtPoll =>
      if negb (PICC_IsNewCardPresent r) || negb (PICC_ReadCardSerial r) then
        emit (TaskDelay 50) ;; ret AtPoll
      else
        rec <- isRecognized EEPROM fuel (uidByte r) ;;
        if rec then
          fed <- gets beenFed ;;
          if negb fed then
            emit (SerialPrint "Granted") ;;
            modify (set_pos 0) ;;
            ret AtSweepUp
          else ret AtCycleEnd
        else ret AtCycleEnd
  | AtSweepUp =>
      p <- gets pos ;;
      if p <=? 45 then
        emit (ServoWrite p) ;;
        emit (TaskDelay 100) ;;
        modify (set_pos (p + 1)) ;;
        ret AtSweepUp
      else
        modify (set_pos 45) ;;
        ret AtSweepDown
  | AtSweepDown =>
      p <- gets pos ;;
      if p >=? 0 then
        emit (ServoWrite p) ;;
        emit (TaskDelay 100) ;;
        modify (set_pos (p - 1)) ;;
        ret AtSweepDown
      else
        modify (set_beenFed true) ;;
        ret AtCycleEnd
  | AtCycleEnd =>
      emit (TaskDelay 1000) ;;
      emit LcdClear ;;
      ret AtPoll
  end.

(** [n] consecutive steps of the task on its own, the reader answering [r]
    whenever it is polled. *)
Fixpoint servo_run (EEPROM : Z -> Z) (fuel : nat) (r : reader) (n : nat)
  (pc : servo_pc) : M servo_pc :=
  match n with
  | O => ret pc
  | S n' =>
      pc' <- servo_step EEPROM fuel r pc ;;
      servo_run EEPROM fuel r n' pc'
  end.

(** ** The three tasks together *)

Inductive task : Type := ResetFeeder | ServoMotor | AdjustInterval.

Definition task_eqb (a b : task) : bool :=
  match a, b with
  | ResetFeeder, ResetFeeder => true
  | ServoMotor, ServoMotor => true
  | AdjustInterval, AdjustInterval => true
  | _, _ => false
  end.

(** What the scheduler runs next, with what the peripherals answer. *)
Inductive label : Type :=
| RunReset (now : DateTime)
| RunServo (r : reader)
| RunAdjust (incrSignal decrSignal : Z).

(** The globals, where [servoMotorTask] stands, and everything emitted so
    far with the task that emitted it. *)
Record system : Type := mkSystem {
  globals_of : globals;
  servo_at : servo_pc;
  history : list (task * event)
}.

Definition tag (t : task) (tr : list event) : list (task * event) :=
  map (pair t) tr.

Definition events_of (t : task) (h : list (task * event)) : list event :=
  map snd (filter (fun te => task_eqb (fst te) t) h).

Definition is_byte (z : Z) : Prop := 0 <= z < 256.

(** [DateTime::minute()] and [DateTime::second()] return [uint8_t]. *)
Definition valid_time (d : DateTime) : Prop :=
  is_byte (minute d) /\ is_byte (second d).

(** The state [setup()] leaves behind when it has created the tasks. *)
Definition sys_init : system :=
  {| globals_of := initial_globals; servo_at := AtPoll; history := [] |}.

Inductive sys_step (EEPROM : Z -> Z) : system -> label -> system -> Prop :=
| step_reset : forall s now g' tr,
    valid_time now ->
    resetFeederTask_cycle now (globals_of s) = Ok (tt, g', tr) ->
    sys_step EEPROM s (RunReset now)
      {| globals_of := g'; servo_at := servo_at s;
         history := history s ++ tag ResetFeeder tr |}
| step_servo : forall s fuel r pc' g' tr,
    servo_step EEPROM fuel r (servo_at s) (globals_of s) = Ok (pc', g', tr) ->
    sys_step EEPROM s (RunServo r)
      {| globals_of := g'; servo_at := pc';
         history := history s ++ tag ServoMotor tr |}
| step_adjust : forall s incrSignal decrSignal g' tr,
    adjustIntervalTask_cycle incrSignal decrSignal (globals_of s)
      = Ok (tt, g', tr) ->
    sys_step EEPROM s (RunAdjust incrSignal decrSignal)
      {| globals_of := g'; servo_at := servo_at s;
         history := history s ++ tag AdjustInterval tr |}.

Inductive reachable (EEPROM : Z -> Z) : system -> Prop :=
| reach_init : reachable EEPROM sys_init
| reach_step : forall s l s',
    reachable EEPROM s -> sys_step EEPROM s l s' -> reachable EEPROM s'.

(** ** Vocabulary of the design document *)

(** The sentinel byte of an erased EEPROM cell. *)
Definition SENTINEL : Z := 255.

(** [a; a+1; ...; a+n-1] *)
Definition count_up (a : Z) (n : nat) : list Z :=
  map (fun k => a + Z.of_nat k) (seq 0 n).

(** Offsets [0 .. UID_SIZE - 1]. *)
Definition uid_offsets : list Z := count_up 0 (Z.to_nat UID_SIZE).

(** Slot indices [0 .. MAX_USERS - 1]. *)
Definition slot_indices : list Z := count_up 0 (Z.to_nat MAX_USERS).

(** The [UID_SIZE] bytes of whitelist slot [i]. *)
Definition slot (EEPROM : Z -> Z) (i : Z) : list Z :=
  map (fun j => EEPROM (i * UID_SIZE + j)) uid_offsets.

(** The [UID_SIZE] bytes of a tag identifier. *)
Definition uid_bytes (uid : list Z) : list Z := map (uid_at uid) uid_offsets.

Definition bytes_eqb (a b : list Z) : bool :=
  (List.length a =? List.length b)%nat && forallb (fun p => fst p =? snd p) (combine a b).

(** A slot is empty when all its bytes are the sentinel, populated
    otherwise. *)
Definition slot_empty (s : list Z) : bool := forallb (fun b => b =? SENTINEL) s.
Definition slot_populated (s : list Z) : bool :=
  existsb (fun b => negb (b =? SENTINEL)) s.

(** Some slot holds exactly the bytes of [uid]. *)
Definition some_slot_matches (EEPROM : Z -> Z) (uid : list Z) : bool :=
  existsb (fun i => bytes_eqb (slot EEPROM i) (uid_bytes uid)) slot_indices.

(** The lookup as the design document words it: some populated slot holds
    exactly the bytes of [uid]. *)
Definition populated_slot_matches (EEPROM : Z -> Z) (uid : list Z) : bool :=
  existsb (fun i => slot_populated (slot EEPROM i)
                    && bytes_eqb (slot EEPROM i) (uid_bytes uid)) slot_indices.

(** One position of the profile: the command and its settle delay. *)
Definition profile_step (p : Z) : list event := [ServoWrite p; TaskDelay 100].

(** The dispense actuation profile: 0, 1, ..., 45 and back 45, 44, ..., 0. *)
Definition dispense_profile : list event :=
  flat_map profile_step (count_up 0 46)
  ++ flat_map profile_step (rev (count_up 0 46)).

Definition is_servo_write (e : event) : bool :=
  match e with ServoWrite _ => true | _ => false end.

Definition is_eeprom_read (e : event) : bool :=
  match e with EepromRead _ => true | _ => false end.

Definition is_serial (e : event) : bool :=
  match e with
  | SerialPrint _ | SerialPrintInt _ | SerialPrintHex _
  | SerialPrintln _ | SerialPrintlnInt _ | SerialNewline => true
  | _ => false
  end.

(** What a trace writes to the serial line. *)
Definition serial_output (tr : list event) : list event := filter is_serial tr.

(** The positions sent to the actuator, in order. *)
Definition actuator_commands (tr : list event) : list Z :=
  flat_map (fun e => match e with ServoWrite p => [p] | _ => [] end) tr.

(** The interval boundary of the design document. *)
Definition at_boundary (now : DateTime) (n : Z) : Prop :=
  minute now mod n = 0 /\ second now = 0.

(** An erased EEPROM: every cell reads as the sentinel. *)
Definition blank_eeprom (_ : Z) : Z := 255.

(** The whitelist of scenario B: slot 0 holds AA BB CC DD, the rest is
    erased. *)
Definition scenario_eeprom (a : Z) : Z :=
  nth (Z.to_nat a) [170; 187; 204; 221] 255.

(** Consecutive iterations of [adjustIntervalTask], one pair of button
    levels (increment, decrement) read in each. *)
Fixpoint adjust_run (sigs : list (Z * Z)) : M unit :=
  match sigs with
  | [] => ret tt
  | (incrSignal, decrSignal) :: rest =>
      adjustIntervalTask_cycle incrSignal decrSignal ;;
      adjust_run rest
  end.

(** The press edges in a sequence of levels polled from one button whose
    level at the poll before was [old]: the polls that read the active level
    [LOW] right after a different level ([press_edge] is 1 for such a poll
    and 0 for any other). *)
Definition press_edge (old v : Z) : Z :=
  if negb (v =? old) && (v =? LOW) then 1 else 0.

Fixpoint press_edges (old : Z) (sigs : list Z) : Z :=
  match sigs with
  | [] => 0
  | v :: rest => press_edge old v + press_edges v rest
  end.

(** [k] presses of the decrement button, each a poll that finds it released
    followed by a poll that finds it pressed, the increment button released
    throughout. *)
Definition decrement_presses (k : nat) : list (Z * Z) :=
  concat (repeat [(HIGH, HIGH); (HIGH, LOW)] k).

(** No event of the trace is a command to the actuator. *)
Definition no_actuation (tr : list event) : bool :=
  forallb (fun e => negb (is_servo_write e)) tr.

(** How far a dispense in progress has got: what [servoMotorTask] has
    emitted so far ends with the part of the profile that lies before the
    position it is about to send. *)
Definition servo_inv (s : system) : Prop :=
  let p := pos (globals_of s) in
  match servo_at s with
  | AtSweepUp =>
      0 <= p <= 46
      /\ exists h, events_of ServoMotor (history s)
                   = h ++ flat_map profile_step (count_up 0 (Z.to_nat p))
  | AtSweepDown =>
      -1 <= p <= 45
      /\ exists h, events_of ServoMotor (history s)
                   = h ++ flat_map profile_step (count_up 0 46)
                       ++ flat_map profile_step
                            (rev (count_up (p + 1) (Z.to_nat (45 - p))))
  | AtPoll | AtCycleEnd => True
  end.

(** A step inside a feeding window: any step of the system but an iteration
    of [resetFeederTask] that finds the clock at an interval boundary. *)
Definition window_step (EEPROM : Z -> Z) (s : system) (l : label)
  (s' : system) : Prop :=
  sys_step EEPROM s l s'
  /\ forall now, l = RunReset now ->
                ~ at_boundary now (interval (globals_of s)).

Inductive window_steps (EEPROM : Z -> Z)
  : system -> list label -> system -> Prop :=
| window_nil : forall s, window_steps EEPROM s [] s
| window_cons : forall s l s1 ls s',
    window_step EEPROM s l s1 ->
    window_steps EEPROM s1 ls s' ->
    window_steps EEPROM s (l :: ls) s'.

(** Consecutive iterations of [servoMotorTask], one answer of the reader
    for each. *)
Fixpoint servo_cycles (EEPROM : Z -> Z) (fuel : nat) (rs : list reader)
  : M unit :=
  match rs with
  | [] => ret tt
  | r :: rest =>
      servoMotorTask_cycle EEPROM fuel r ;;
      servo_cycles EEPROM fuel rest
  end.

(** Scenario B as a run of the system: the reader keeps reporting the
    whitelisted tag, and [servoMotorTask] has sent the last position of the
    return sweep. *)
Definition scenario_reader : reader :=
  mkReader true true [170; 187; 204; 221].

Definition scenario_sweep_done : system :=
  {| globals_of := set_pos (-1) initial_globals;
     servo_at := AtSweepDown;
     history :=
       tag ServoMotor
         ([EepromRead 0; EepromRead 1; EepromRead 2; EepromRead 3;
           SerialPrint "Granted"] ++ dispense_profile) |}.

(** The state one step later, the dispense complete. *)
Definition scenario_fed : system :=
  {| globals_of := set_beenFed true (set_pos (-1) initial_globals);
     servo_at := AtCycleEnd;
     history := history scenario_sweep_done ++ tag ServoMotor [] |}.

(** A result with [t] emitted before it. *)
Definition prefix_trace {A : Type} (t : list event)
  (res : result (A * globals * list event)) : result (A * globals * list event) :=
  match res with
  | Ok (a, g, t') => Ok (a, g, t ++ t')
  | Err e => Err e
  end.

(** The reads [isRecognized] makes to compare all the bytes of slot [i]. *)
Definition slot_reads (i : Z) : list event :=
  map (fun j => EepromRead (i * UID_SIZE + j)) uid_offsets.

(** ** Further vocabulary *)

(** Every event of the trace is a read of an EEPROM cell in [lo, hi). *)
Definition reads_within (lo hi : Z) (tr : list event) : bool :=
  forallb (fun e => match e with
                    | EepromRead a => (lo <=? a) && (a <? hi)
                    | _ => false
                    end) tr.

(** The EEPROM cells a trace reads, in order. *)
Definition eeprom_reads (tr : list event) : list Z :=
  flat_map (fun e => match e with EepromRead a => [a] | _ => [] end) tr.

(** The slots [loadUIDsFromEEPROM] reports as users: the populated ones, with
    their index. *)
Definition listed_users (EEPROM : Z -> Z) : list (Z * list Z) :=
  filter (fun u => slot_populated (snd u))
    (map (fun i => (i, slot EEPROM i)) slot_indices).

(** The line [loadUIDsFromEEPROM] prints for slot [i] holding [bytes]. *)
Definition user_line (u : Z * list Z) : list event :=
  [SerialPrint "User "; SerialPrintInt (fst u + 1); SerialPrint ": "]
  ++ flat_map (fun b => [SerialPrint (if b <? 16 then " 0" else " ");
                         SerialPrintHex b]) (snd u)
  ++ [SerialNewline].

(** What [loadUIDsFromEEPROM] emits for slot [k]: the reads of its cells
    and, if it is populated, its line. *)
Definition load_slot_trace (EEPROM : Z -> Z) (k : Z) : list event :=
  slot_reads k
  ++ (if slot_populated (slot EEPROM k) then user_line (k, slot EEPROM k)
      else []).

(** The time a trace spends in [vTaskDelay], in milliseconds. *)
Definition total_delay (tr : list event) : Z :=
  fold_right (fun e acc => match e with TaskDelay ms => ms + acc | _ => acc end)
    0 tr.

(** Consecutive positions differ by at most one. *)
Fixpoint unit_steps (l : list Z) : bool :=
  match l with
  | a :: (b :: _) as rest => (Z.abs (a - b) <=? 1) && unit_steps rest
  | _ => true
  end.

(** The reader reports a tag that the whitelist holds. *)
Definition reader_recognized (EEPROM : Z -> Z) (r : reader) : bool :=
  PICC_IsNewCardPresent r && PICC_ReadCardSerial r
  && some_slot_matches EEPROM (uidByte r).

(** The positions of the dispense profile. *)
Definition profile_positions : list Z := count_up 0 46 ++ rev (count_up 0 46).

(** Every position the history shows going to the actuator lies in
    0..45. *)
Definition servo_angles_ok (h : list (task * event)) : bool :=
  forallb (fun te => match snd te with
                     | ServoWrite p => (0 <=? p) && (p <=? 45)
                     | _ => true
                     end) h.

(** ** [setup]

    What [setup] does to the peripherals and the scheduler, with the events
    of a task trace among it.  Whether [EEPROM.begin] succeeds is an
    input. *)

Definition SS_PIN : Z := 8.
Definition SCK : Z := 12.
Definition MOSI : Z := 11.
Definition MISO : Z := 13.
Definition SDApin : Z := 4.
Definition SCLpin : Z := 5.
Definition incrementButton : Z := 37.
Definition decrementButton : Z := 36.

Inductive setup_event : Type :=
| SerialBegin (baud : Z)
| ServoAttach (pin : Z)
| WireBegin (sda scl : Z)
| LcdInit
| LcdBacklight
| RtcBegin
| RtcAdjust                         (* to the time of compilation *)
| SpiBegin (sck miso mosi ss : Z)
| PcdInit
| EepromBegin (size : Z)
| PinModePullup (pin : Z)           (* pinMode(pin, INPUT_PULLUP) *)
| TaskCreate (t : task) (name : string) (stack priority core : Z)
| Emitted (e : event).

Definition setup (EEPROM : Z -> Z) (fuel : nat) (eeprom_begin : bool)
  (g : globals) : result (unit * globals * list setup_event) :=
  let init :=
    [SerialBegin 115200; ServoAttach 7; WireBegin SDApin SCLpin;
     LcdInit; LcdBacklight; Emitted LcdClear; RtcBegin; RtcAdjust;
     SpiBegin SCK MISO MOSI SS_PIN; PcdInit; EepromBegin EEPROM_SIZE] in
  if negb eeprom_begin then
    Ok (tt, g, init ++ [Emitted (SerialPrintln "Failed to initialize EEPROM")])
  else
    match loadUIDsFromEEPROM EEPROM fuel g with
    | Ok (_, g1, tr) =>
        Ok (tt, g1,
            init ++ map Emitted tr
            ++ [PinModePullup incrementButton; PinModePullup decrementButton;
                TaskCreate ResetFeeder "Feeder Reset" 4096 1 1;
                TaskCreate ServoMotor "Servo Motor" 4096 1 0;
                TaskCreate AdjustInterval "Adjust Interval" 2048 1 1])
    | Err e => Err e
    end.

(** The tasks a run of [setup] creates, with the core each is pinned to. *)
Definition tasks_created (tr : list setup_event) : list (task * Z) :=
  flat_map (fun e => match e with
                     | TaskCreate t _ _ _ core => [(t, core)]
                     | _ => []
                     end) tr.

(** The task events among those of [setup]. *)
Definition emitted (tr : list setup_event) : list event :=
  flat_map (fun e => match e with Emitted e' => [e'] | _ => [] end) tr.

(** * Properties *)

(** Splits the disjunctions, conjunctions and existentials among the
    hypotheses. *)
Ltac break_cases :=
  repeat match goal with
         | H : _ \/ _ |- _ => destruct H
         | H : _ /\ _ |- _ => destruct H
         | H : exists _, _ |- _ => destruct H
         end.

(** ** The monad *)

Lemma bind_ok {A B : Type} (c : M A) (k : A -> M B) g a g1 t1 :
  c g = Ok (a, g1, t1) ->
  bind c k g =
  match k a g1 with
  | Ok (b, g2, t2) => Ok (b, g2, t1 ++ t2)
  | Err e => Err e
  end.
Proof. intros H. unfold bind. rewrite H. reflexivity. Qed.

Lemma count_up_S a n : count_up a (S n) = a :: count_up (a + 1) n.
Proof.
  unfold count_up. cbn [seq map]. f_equal.
  - lia.
  - rewrite <- seq_shift, map_map. apply map_ext. intros k. lia.
Qed.

Lemma count_up_snoc a n :
  count_up a (S n) = count_up a n ++ [a + Z.of_nat n].
Proof.
  unfold count_up. rewrite seq_S, map_app. reflexivity.
Qed.

Lemma in_count_up a n x :
  In x (count_up a n) <-> a <= x < a + Z.of_nat n.
Proof.
  unfold count_up. rewrite in_map_iff. split.
  - intros [k [<- Hk]]. apply in_seq in Hk. lia.
  - intros H. exists (Z.to_nat (x - a)). split; [lia|].
    apply in_seq. lia.
Qed.

(** ** Whitelist lookup *)

Section WhitelistFacts.

Variable EEPROM : Z -> Z.

Lemma bytes_eqb_map (f h : Z -> Z) (l : list Z) :
  bytes_eqb (map f l) (map h l) = forallb (fun k => f k =? h k) l.
Proof.
  unfold bytes_eqb. rewrite !length_map, Nat.eqb_refl. cbn [andb].
  induction l as [|k l IH]; cbn; [reflexivity|].
  rewrite IH. reflexivity.
Qed.

(** The inner loop, entered at offset [j] with [n] offsets to go, compares
    the remaining bytes of slot [i] with the identifier; it changes no
    global and only reads the EEPROM. *)
Lemma uid_match_loop_from uid i g n :
  forall fuel j,
    j = UID_SIZE - Z.of_nat n ->
    (n < fuel)%nat ->
    exists tr,
      uid_match_loop EEPROM fuel uid i j g
        = Ok (forallb (fun k => EEPROM (i * UID_SIZE + k) =? uid_at uid k)
                (count_up j n), g, tr)
      /\ forallb is_eeprom_read tr = true.
Proof.
  induction n as [|n IH]; intros fuel j Hj Hf;
    (destruct fuel as [|fuel]; [lia|]); cbn [uid_match_loop].
  - replace (j <? UID_SIZE) with false by (symmetry; apply Z.ltb_ge; lia).
    exists []. split; reflexivity.
  - replace (j <? UID_SIZE) with true by (symmetry; apply Z.ltb_lt; lia).
    rewrite count_up_S. cbn [forallb].
    unfold EEPROM_read.
    destruct (IH fuel (j + 1)) as [tr [Hrun Htr]]; [lia|lia|].
    unfold bind at 1. cbn.
    destruct (EEPROM (i * UID_SIZE + j) =? uid_at uid j); cbn.
    + rewrite Hrun. eexists. split; [reflexivity|]. cbn. exact Htr.
    + eexists. split; reflexivity.
Qed.

Lemma uid_match_loop_ok fuel uid i g :
  (5 <= fuel)%nat ->
  exists tr,
    uid_match_loop EEPROM fuel uid i 0 g
      = Ok (bytes_eqb (slot EEPROM i) (uid_bytes uid), g, tr)
    /\ forallb is_eeprom_read tr = true.
Proof.
  intros Hf.
  destruct (uid_match_loop_from uid i g 4 fuel 0) as [tr [Hrun Htr]];
    [reflexivity|lia|].
  exists tr. split; [|exact Htr].
  rewrite Hrun. unfold slot, uid_bytes. rewrite bytes_eqb_map. reflexivity.
Qed.

(** The outer loop, entered at slot [i] with [n] slots to go. *)
Lemma isRecognized_loop_from uid g n :
  forall fuel i,
    i = MAX_USERS - Z.of_nat n ->
    (n + 5 <= fuel)%nat ->
    exists tr,
      isRecognized_loop EEPROM fuel uid i g
        = Ok (existsb (fun k => bytes_eqb (slot EEPROM k) (uid_bytes uid))
                (count_up i n), g, tr)
      /\ forallb is_eeprom_read tr = true.
Proof.
  induction n as [|n IH]; intros fuel i Hi Hf;
    (destruct fuel as [|fuel]; [lia|]); cbn [isRecognized_loop].
  - replace (i <? MAX_USERS) with false by (symmetry; apply Z.ltb_ge; lia).
    exists []. split; reflexivity.
  - replace (i <? MAX_USERS) with true by (symmetry; apply Z.ltb_lt; lia).
    rewrite count_up_S. cbn [existsb].
    destruct (uid_match_loop_ok (S fuel) uid i g) as [t1 [H1 Ht1]]; [lia|].
    rewrite (bind_ok _ _ _ _ _ _ H1).
    destruct (bytes_eqb (slot EEPROM i) (uid_bytes uid)); cbn.
    + eexists. split; [reflexivity|]. rewrite app_nil_r. exact Ht1.
    + destruct (IH fuel (i + 1)) as [t2 [H2 Ht2]]; [lia|lia|].
      rewrite H2. eexists. split; [reflexivity|].
      rewrite forallb_app, Ht1, Ht2. reflexivity.
Qed.

(** [isRecognized] returns, given fuel for its two loops, whether some slot
    holds the identifier byte for byte; it changes no global and only reads
    the EEPROM. *)
Lemma isRecognized_ok fuel uid g :
  (15 <= fuel)%nat ->
  exists tr,
    isRecognized EEPROM fuel uid g = Ok (some_slot_matches EEPROM uid, g, tr)
    /\ forallb is_eeprom_read tr = true.
Proof.
  intros Hf. unfold isRecognized, some_slot_matches, slot_indices.
  apply (isRecognized_loop_from uid g 10 fuel 0); [reflexivity|].
  cbn. lia.
Qed.

(** A slot matches when each of its [UID_SIZE] bytes equals the byte of the
    identifier at the same offset. *)
Lemma slot_matches_bytes uid i :
  bytes_eqb (slot EEPROM i) (uid_bytes uid) = true <->
  forall j, 0 <= j < UID_SIZE -> EEPROM (i * UID_SIZE + j) = uid_at uid j.
Proof.
  unfold slot, uid_bytes. rewrite bytes_eqb_map, forallb_forall.
  unfold uid_offsets. split.
  - intros H j Hj. apply Z.eqb_eq, H, in_count_up.
    change (Z.of_nat (Z.to_nat UID_SIZE)) with UID_SIZE. lia.
  - intros H j Hj. apply in_count_up in Hj.
    change (Z.of_nat (Z.to_nat UID_SIZE)) with UID_SIZE in Hj.
    apply Z.eqb_eq, H. lia.
Qed.

Lemma some_slot_matches_iff uid :
  some_slot_matches EEPROM uid = true <->
  exists i, 0 <= i < MAX_USERS /\
    forall j, 0 <= j < UID_SIZE -> EEPROM (i * UID_SIZE + j) = uid_at uid j.
Proof.
  unfold some_slot_matches, slot_indices. rewrite existsb_exists. split.
  - intros [i [Hi Hm]]. exists i. split.
    + apply in_count_up in Hi.
      change (Z.of_nat (Z.to_nat MAX_USERS)) with MAX_USERS in Hi. lia.
    + apply slot_matches_bytes, Hm.
  - intros [i [Hi Hm]]. exists i. split.
    + apply in_count_up.
      change (Z.of_nat (Z.to_nat MAX_USERS)) with MAX_USERS. lia.
    + apply slot_matches_bytes, Hm.
Qed.

End WhitelistFacts.

Lemma slot_populated_negb s : slot_populated s = negb (slot_empty s).
Proof.
  unfold slot_populated, slot_empty.
  induction s as [|b s IH]; cbn; [reflexivity|].
  rewrite IH. destruct (b =? SENTINEL); reflexivity.
Qed.

Lemma bytes_eqb_eq a : forall b, bytes_eqb a b = true -> a = b.
Proof.
  unfold bytes_eqb.
  induction a as [|x a IH]; intros [|y b]; cbn; intros H;
    try reflexivity; try discriminate.
  apply andb_prop in H. destruct H as [Hl H].
  apply andb_prop in H. destruct H as [Hx H].
  apply Z.eqb_eq in Hx. subst y. f_equal.
  apply IH. rewrite Hl, H. reflexivity.
Qed.

(** For an identifier other than the sentinel pattern, matching a slot and
    matching a populated slot are the same. *)
Lemma populated_slot_matches_nonsentinel EEPROM uid :
  slot_empty (uid_bytes uid) = false ->
  populated_slot_matches EEPROM uid = some_slot_matches EEPROM uid.
Proof.
  intros Hne. unfold populated_slot_matches, some_slot_matches.
  induction slot_indices as [|i l IH]; cbn [existsb]; [reflexivity|].
  rewrite IH. f_equal.
  destruct (bytes_eqb (slot EEPROM i) (uid_bytes uid)) eqn:Hm.
  - apply bytes_eqb_eq in Hm. rewrite Hm, slot_populated_negb, Hne.
    reflexivity.
  - apply andb_false_r.
Qed.

Lemma slot_empty_eq s :
  slot_empty s = true -> s = repeat SENTINEL (List.length s).
Proof.
  unfold slot_empty. induction s as [|b s IH]; cbn; [reflexivity|].
  intros H. apply andb_prop in H. destruct H as [Hb H].
  apply Z.eqb_eq in Hb. subst b. f_equal. apply IH, H.
Qed.

(** C1 does not hold of [isRecognized]: matching is not confined to
    populated slots.  On an erased EEPROM no slot is populated --
    [loadUIDsFromEEPROM] lists no user there -- yet [isRecognized] answers
    true for the tag whose four identifier bytes are 0xFF, after reading the
    four bytes of slot 0. *)
Theorem isRecognized_blank_eeprom_sentinel_uid :
  isRecognized blank_eeprom 15 [255; 255; 255; 255] initial_globals
    = Ok (true, initial_globals,
          [EepromRead 0; EepromRead 1; EepromRead 2; EepromRead 3])
  /\ populated_slot_matches blank_eeprom [255; 255; 255; 255] = false
  /\ exists tr,
       loadUIDsFromEEPROM blank_eeprom 15 initial_globals
         = Ok (tt, initial_globals, tr)
       /\ serial_output tr = [SerialPrintln "Loaded stored RFID users:"].
Proof.
  split; [vm_compute; reflexivity|].
  split; [vm_compute; reflexivity|].
  eexists. split; vm_compute; reflexivity.
Qed.

(** C10: when some slot of the whitelist is empty (all [UID_SIZE] bytes are
    the sentinel 0xFF), [isRecognized] returns true for the identifier whose
    bytes are all 0xFF. *)
Theorem isRecognized_sentinel_uid EEPROM fuel uid g :
  (15 <= fuel)%nat ->
  (exists i, 0 <= i < MAX_USERS /\ slot_empty (slot EEPROM i) = true) ->
  uid_bytes uid = [255; 255; 255; 255] ->
  exists tr, isRecognized EEPROM fuel uid g = Ok (true, g, tr).
Proof.
  intros Hf [i [Hi He]] Hu.
  destruct (isRecognized_ok EEPROM fuel uid g Hf) as [tr [Hrun _]].
  exists tr. rewrite Hrun. do 3 f_equal.
  unfold some_slot_matches. apply existsb_exists. exists i. split.
  - apply in_count_up.
    change (Z.of_nat (Z.to_nat MAX_USERS)) with MAX_USERS. lia.
  - apply slot_empty_eq in He. rewrite He, Hu.
    unfold slot. rewrite length_map. reflexivity.
Qed.

Lemma isRecognized_sentinel_uid_witness :
  exists tr,
    isRecognized scenario_eeprom 15 [255; 255; 255; 255] initial_globals
      = Ok (true, initial_globals, tr).
Proof.
  apply (isRecognized_sentinel_uid scenario_eeprom 15 [255; 255; 255; 255]
           initial_globals).
  - lia.
  - exists 1. split; [unfold MAX_USERS; lia | reflexivity].
  - reflexivity.
Defined.

(** ** Clock Monitor *)

Lemma to_byte_small z : is_byte z -> to_byte z = z.
Proof. unfold is_byte, to_byte. intros H. apply Z.mod_small. lia. Qed.

(** What one iteration does, whenever the interval is not zero. *)
Lemma resetFeederTask_cycle_ok now g :
  interval g <> 0 ->
  resetFeederTask_cycle now g =
  if (Z.rem (to_byte (minute now)) (interval g) =? 0)
     && (to_byte (second now) =? 0)
  then Ok (tt, set_beenFed false (set_nowDT now g),
           [SerialPrintln "Ready to Feed"; TaskDelay 100])
  else Ok (tt, set_nowDT now g, [TaskDelay 100]).
Proof.
  intros Hn. unfold resetFeederTask_cycle, bind, modify, gets, c_rem.
  cbn. apply Z.eqb_neq in Hn. rewrite Hn. cbn.
  destruct ((Z.rem (to_byte (minute now)) (interval g) =? 0)
            && (to_byte (second now) =? 0)); reflexivity.
Qed.

(** With a zero interval the iteration stops at the remainder. *)
Lemma resetFeederTask_cycle_zero now g :
  interval g = 0 -> resetFeederTask_cycle now g = Err DivideByZero.
Proof.
  intros Hn. unfold resetFeederTask_cycle, bind, modify, gets, c_rem.
  cbn. rewrite Hn. reflexivity.
Qed.

(** The test of the code is the boundary of the design document. *)
Lemma boundary_test now n :
  n <> 0 -> valid_time now ->
  (Z.rem (to_byte (minute now)) n =? 0) && (to_byte (second now) =? 0) = true
  <-> at_boundary now n.
Proof.
  intros Hn [Hm Hs]. rewrite !to_byte_small by assumption.
  unfold at_boundary.
  rewrite andb_true_iff, !Z.eqb_eq, Z.rem_mod_eq_0 by assumption.
  reflexivity.
Qed.

(** C4: for an interval of at least 1 and every clock reading, one iteration
    of [resetFeederTask] leaves [beenFed] false when
    [minute mod interval = 0] and [second = 0], and leaves it as it was
    otherwise; nothing else of the feeding window changes. *)
Theorem resetFeederTask_cycle_boundary now g :
  1 <= interval g ->
  valid_time now ->
  exists g' tr,
    resetFeederTask_cycle now g = Ok (tt, g', tr)
    /\ (at_boundary now (interval g) -> beenFed g' = false)
    /\ (~ at_boundary now (interval g) -> beenFed g' = beenFed g)
    /\ interval g' = interval g.
Proof.
  intros Hi Hv.
  assert (Hn : interval g <> 0) by lia.
  rewrite (resetFeederTask_cycle_ok now g Hn).
  pose proof (boundary_test now (interval g) Hn Hv) as Hb.
  destruct ((Z.rem (to_byte (minute now)) (interval g) =? 0)
            && (to_byte (second now) =? 0)).
  - do 2 eexists. split; [reflexivity|]. repeat split.
    intros Hnb. exfalso. apply Hnb, Hb. reflexivity.
  - do 2 eexists. split; [reflexivity|]. repeat split.
    intros Hab. apply Hb in Hab. discriminate.
Qed.

(** Scenario A: interval 5, the clock at minute 10, second 0. *)
Lemma resetFeederTask_cycle_boundary_witness :
  exists g' tr,
    resetFeederTask_cycle (mkDateTime 10 0) (set_beenFed true initial_globals)
      = Ok (tt, g', tr)
    /\ beenFed g' = false.
Proof.
  destruct (resetFeederTask_cycle_boundary (mkDateTime 10 0)
              (set_beenFed true initial_globals))
    as [g' [tr [Hrun [Hclear _]]]].
  - cbn. lia.
  - unfold valid_time, is_byte. cbn. lia.
  - exists g', tr. split; [exact Hrun|].
    apply Hclear. unfold at_boundary. cbn. split; reflexivity.
Defined.

(** ** Interval Configurator *)

Lemma wrap32_in_int z : in_int (wrap32 z).
Proof.
  unfold in_int, wrap32, INT_MIN, INT_MAX.
  pose proof (Z.mod_pos_bound (z + 2 ^ 31) (2 ^ 32) ltac:(lia)). lia.
Qed.

Lemma wrap32_id z : in_int z -> wrap32 z = z.
Proof.
  unfold in_int, wrap32, INT_MIN, INT_MAX. intros H.
  rewrite Z.mod_small; lia.
Qed.

Lemma wrap32_add_l a b : wrap32 (wrap32 a + b) = wrap32 (a + b).
Proof.
  unfold wrap32. f_equal.
  replace ((a + 2 ^ 31) mod 2 ^ 32 - 2 ^ 31 + b + 2 ^ 31)
    with ((a + 2 ^ 31) mod 2 ^ 32 + b) by lia.
  rewrite Zplus_mod_idemp_l. f_equal. lia.
Qed.

Lemma wrap32_sub_l a b : wrap32 (wrap32 a - b) = wrap32 (a - b).
Proof. unfold Z.sub. apply wrap32_add_l. Qed.

(** One iteration: each button adjusts the interval when, and only when, its
    level is [LOW] and differs from the level stored at the poll before; the
    levels read are stored; the rest of the globals is untouched. *)
Lemma adjustIntervalTask_cycle_effect a b g :
  in_int (interval g) ->
  exists g' tr,
    adjustIntervalTask_cycle a b g = Ok (tt, g', tr)
    /\ interval g'
       = wrap32 (interval g + press_edge (oldIncrVal g) a
                 - press_edge (oldDecrVal g) b)
    /\ oldIncrVal g' = a /\ oldDecrVal g' = b
    /\ beenFed g' = beenFed g /\ pos g' = pos g /\ nowDT g' = nowDT g
    /\ forallb (fun e => negb (is_servo_write e)) tr = true.
Proof.
  intros Hin.
  unfold adjustIntervalTask_cycle, press_edge, bind, gets, modify, emit, when.
  destruct (a =? oldIncrVal g) eqn:Ea; destruct (a =? LOW) eqn:Eal;
    destruct (b =? oldDecrVal g) eqn:Eb; destruct (b =? LOW) eqn:Ebl;
    cbn; rewrite ?Eb, ?Ebl; cbn;
    try apply Z.eqb_eq in Ea; try apply Z.eqb_eq in Eb;
    do 2 eexists; (split; [reflexivity|]); cbn;
    rewrite ?wrap32_sub_l, ?wrap32_add_l, ?Z.add_0_r, ?Z.sub_0_r;
    repeat split; try (symmetry; assumption);
    try (symmetry; apply wrap32_id; assumption);
    try (f_equal; lia).
Qed.

(** Over any sequence of polls the interval moves by the number of press
    edges of the increment button minus that of the decrement button. *)
Lemma adjust_run_edges sigs :
  forall g,
    in_int (interval g) ->
    exists g' tr,
      adjust_run sigs g = Ok (tt, g', tr)
      /\ interval g'
         = wrap32 (interval g + press_edges (oldIncrVal g) (map fst sigs)
                   - press_edges (oldDecrVal g) (map snd sigs))
      /\ beenFed g' = beenFed g
      /\ forallb (fun e => negb (is_servo_write e)) tr = true.
Proof.
  induction sigs as [|[a b] rest IH]; intros g Hin.
  - exists g, []. cbn. rewrite Z.add_0_r, Z.sub_0_r, wrap32_id by assumption.
    repeat split.
  - destruct (adjustIntervalTask_cycle_effect a b g Hin)
      as [g1 [t1 [H1 [Hi1 [Ha [Hb [Hf1 [_ [_ Ht1]]]]]]]]].
    destruct (IH g1) as [g' [t2 [H2 [Hi2 [Hf2 Ht2]]]]].
    { rewrite Hi1. apply wrap32_in_int. }
    exists g', (t1 ++ t2). cbn [adjust_run map fst snd press_edges].
    rewrite (bind_ok _ _ _ _ _ _ H1), H2. split; [reflexivity|].
    split; [|split].
    + rewrite Hi2, Ha, Hb, Hi1.
      replace (wrap32 (interval g + press_edge (oldIncrVal g) a
                       - press_edge (oldDecrVal g) b)
               + press_edges a (map fst rest) - press_edges b (map snd rest))
        with (wrap32 (interval g + press_edge (oldIncrVal g) a
                      - press_edge (oldDecrVal g) b)
              + (press_edges a (map fst rest) - press_edges b (map snd rest)))
        by lia.
      rewrite wrap32_add_l. f_equal. lia.
    + congruence.
    + rewrite forallb_app, Ht1, Ht2. reflexivity.
Qed.

(** A button held at [LOW] shows no press edge after the poll that found
    it there. *)
Lemma press_edges_held sigs :
  Forall (fun v => v = LOW) sigs -> press_edges LOW sigs = 0.
Proof.
  induction 1 as [|v l Hv _ IH]; cbn; [reflexivity|].
  subst v. rewrite IH. reflexivity.
Qed.

(** A released button that is pressed and then held shows one press edge. *)
Lemma press_edges_one_press old sigs :
  old <> LOW -> sigs <> [] -> Forall (fun v => v = LOW) sigs ->
  press_edges old sigs = 1.
Proof.
  intros Hold Hne Hall. destruct Hall as [|v l Hv Hl]; [congruence|].
  subst v. cbn [press_edges]. rewrite (press_edges_held l Hl).
  unfold press_edge. apply not_eq_sym, Z.eqb_neq in Hold.
  rewrite Hold. reflexivity.
Qed.

(** C6: when the increment button goes from released to pressed and is then
    held at the active-low level for any number of further polls, the
    decrement button showing no press edge meanwhile, the interval is one
    more than before, however many polls the button was held for; the same
    with the buttons exchanged takes one off.  The interval is taken strictly
    inside the range of [int], where [++] and [--] do not overflow. *)
Theorem press_edge_adjusts_once g sigs :
  INT_MIN < interval g < INT_MAX ->
  sigs <> [] ->
  (oldIncrVal g <> LOW ->
   Forall (fun v => v = LOW) (map fst sigs) ->
   press_edges (oldDecrVal g) (map snd sigs) = 0 ->
   exists g' tr,
     adjust_run sigs g = Ok (tt, g', tr) /\ interval g' = interval g + 1)
  /\ (oldDecrVal g <> LOW ->
      Forall (fun v => v = LOW) (map snd sigs) ->
      press_edges (oldIncrVal g) (map fst sigs) = 0 ->
      exists g' tr,
        adjust_run sigs g = Ok (tt, g', tr) /\ interval g' = interval g - 1).
Proof.
  intros Hrange Hne.
  assert (Hin : in_int (interval g)) by (unfold in_int; lia).
  destruct (adjust_run_edges sigs g Hin) as [g' [tr [Hrun [Hi _]]]].
  split; intros Hold Hheld Hidle; exists g', tr; (split; [exact Hrun|]);
    rewrite Hi, Hidle, (press_edges_one_press _ _ Hold) by
      (first [assumption | destruct sigs; [congruence | discriminate]]);
    rewrite wrap32_id; unfold in_int; lia.
Qed.

(** Scenario E: the increment button is pressed and held for five more
    polls while the decrement button stays released. *)
Lemma press_edge_adjusts_once_witness :
  exists g' tr,
    adjust_run (repeat (LOW, HIGH) 6)
      (set_oldIncrVal HIGH (set_oldDecrVal HIGH initial_globals))
      = Ok (tt, g', tr)
    /\ interval g' = 6.
Proof.
  apply (proj1 (press_edge_adjusts_once
                  (set_oldIncrVal HIGH (set_oldDecrVal HIGH initial_globals))
                  (repeat (LOW, HIGH) 6)
                  ltac:(unfold INT_MIN, INT_MAX; cbn; lia)
                  ltac:(discriminate))).
  - discriminate.
  - cbn. repeat constructor.
  - reflexivity.
Defined.

(** ** Access & Dispense Controller, step by step *)

Section ServoSteps.

Variable EEPROM : Z -> Z.

(** With whatever fuel, a lookup that returns has changed no global and has
    only read the EEPROM. *)
Lemma uid_match_loop_frame fuel :
  forall uid i j g b g1 t,
    uid_match_loop EEPROM fuel uid i j g = Ok (b, g1, t) ->
    g1 = g /\ forallb is_eeprom_read t = true.
Proof.
  induction fuel as [|fuel IH]; intros uid i j g b g1 t H;
    cbn [uid_match_loop] in H; [discriminate|].
  destruct (j <? UID_SIZE).
  - unfold EEPROM_read, bind at 1 in H. cbn in H.
    destruct (EEPROM (i * UID_SIZE + j) =? uid_at uid j); cbn in H.
    + destruct (uid_match_loop EEPROM fuel uid i (j + 1) g)
        as [[[b' g2] t2]|e] eqn:Hr; [|discriminate].
      apply IH in Hr. destruct Hr as [-> Ht2].
      inversion H; subst. split; [reflexivity|exact Ht2].
    + inversion H; subst. split; reflexivity.
  - inversion H; subst. split; reflexivity.
Qed.

Lemma isRecognized_loop_frame fuel :
  forall uid i g b g1 t,
    isRecognized_loop EEPROM fuel uid i g = Ok (b, g1, t) ->
    g1 = g /\ forallb is_eeprom_read t = true.
Proof.
  induction fuel as [|fuel IH]; intros uid i g b g1 t H;
    cbn [isRecognized_loop] in H; [discriminate|].
  destruct (i <? MAX_USERS).
  - unfold bind in H.
    destruct (uid_match_loop EEPROM (S fuel) uid i 0 g)
      as [[[m g2] t2]|e] eqn:Hm; [|discriminate].
    apply uid_match_loop_frame in Hm. destruct Hm as [-> Ht2].
    destruct m.
    + cbn in H. inversion H; subst. rewrite app_nil_r.
      split; [reflexivity|exact Ht2].
    + destruct (isRecognized_loop EEPROM fuel uid (i + 1) g)
        as [[[b' g3] t3]|e] eqn:Hr; [|discriminate].
      apply IH in Hr. destruct Hr as [-> Ht3].
      inversion H; subst. rewrite forallb_app, Ht2, Ht3.
      split; reflexivity.
  - inversion H; subst. split; reflexivity.
Qed.

Lemma isRecognized_frame fuel uid g b g1 t :
  isRecognized EEPROM fuel uid g = Ok (b, g1, t) ->
  g1 = g /\ forallb is_eeprom_read t = true.
Proof. apply isRecognized_loop_frame. Qed.

(** With whatever fuel, a lookup that returns has returned whether some slot
    holds the identifier: running short of fuel never shows as an answer. *)
Lemma uid_match_loop_sound fuel :
  forall uid i j g b g1 t,
    0 <= j <= UID_SIZE ->
    uid_match_loop EEPROM fuel uid i j g = Ok (b, g1, t) ->
    b = forallb (fun k => EEPROM (i * UID_SIZE + k) =? uid_at uid k)
          (count_up j (Z.to_nat (UID_SIZE - j))).
Proof.
  induction fuel as [|fuel IH]; intros uid i j g b g1 t Hj H;
    cbn [uid_match_loop] in H; [discriminate|].
  destruct (j <? UID_SIZE) eqn:Hlt.
  - apply Z.ltb_lt in Hlt.
    replace (Z.to_nat (UID_SIZE - j))
      with (S (Z.to_nat (UID_SIZE - (j + 1)))) by lia.
    rewrite count_up_S. cbn [forallb].
    unfold EEPROM_read, bind at 1 in H. cbn in H.
    destruct (EEPROM (i * UID_SIZE + j) =? uid_at uid j); cbn in H.
    + destruct (uid_match_loop EEPROM fuel uid i (j + 1) g)
        as [[[b' g2] t2]|e] eqn:Hr; [|discriminate].
      apply IH in Hr; [|lia]. inversion H; subst. reflexivity.
    + inversion H; subst. reflexivity.
  - apply Z.ltb_ge in Hlt. replace (Z.to_nat (UID_SIZE - j)) with 0%nat by lia.
    inversion H; subst. reflexivity.
Qed.

Lemma isRecognized_loop_sound fuel :
  forall uid i g b g1 t,
    0 <= i <= MAX_USERS ->
    isRecognized_loop EEPROM fuel uid i g = Ok (b, g1, t) ->
    b = existsb (fun k => bytes_eqb (slot EEPROM k) (uid_bytes uid))
          (count_up i (Z.to_nat (MAX_USERS - i))).
Proof.
  induction fuel as [|fuel IH]; intros uid i g b g1 t Hi H;
    cbn [isRecognized_loop] in H; [discriminate|].
  destruct (i <? MAX_USERS) eqn:Hlt.
  - apply Z.ltb_lt in Hlt.
    replace (Z.to_nat (MAX_USERS - i))
      with (S (Z.to_nat (MAX_USERS - (i + 1)))) by lia.
    rewrite count_up_S. cbn [existsb].
    unfold bind in H.
    destruct (uid_match_loop EEPROM (S fuel) uid i 0 g)
      as [[[m g2] t2]|e] eqn:Hm; [|discriminate].
    pose proof (uid_match_loop_frame _ _ _ _ _ _ _ _ Hm) as [-> _].
    apply uid_match_loop_sound in Hm; [|unfold UID_SIZE; lia].
    assert (Hslot : bytes_eqb (slot EEPROM i) (uid_bytes uid) = m).
    { unfold slot, uid_bytes. rewrite bytes_eqb_map. symmetry. exact Hm. }
    rewrite Hslot. destruct m.
    + cbn in H. inversion H; subst. reflexivity.
    + destruct (isRecognized_loop EEPROM fuel uid (i + 1) g)
        as [[[b' g3] t3]|e] eqn:Hr; [|discriminate].
      apply IH in Hr; [|lia]. inversion H; subst. reflexivity.
  - apply Z.ltb_ge in Hlt.
    replace (Z.to_nat (MAX_USERS - i)) with 0%nat by lia.
    inversion H; subst. reflexivity.
Qed.

Lemma isRecognized_sound fuel uid g b g1 t :
  isRecognized EEPROM fuel uid g = Ok (b, g1, t) ->
  b = some_slot_matches EEPROM uid.
Proof.
  intros H. apply isRecognized_loop_sound in H; [exact H|].
  unfold MAX_USERS. lia.
Qed.

(** The scan is linear and the first match wins: a lookup that answers true
    has stopped at a slot that holds the identifier, the last thing it did
    was to read that slot in full, and no slot before it holds the
    identifier. *)
Lemma uid_match_loop_reads fuel :
  forall uid i j g g1 t,
    0 <= j <= UID_SIZE ->
    uid_match_loop EEPROM fuel uid i j g = Ok (true, g1, t) ->
    t = map (fun k => EepromRead (i * UID_SIZE + k))
          (count_up j (Z.to_nat (UID_SIZE - j))).
Proof.
  induction fuel as [|fuel IH]; intros uid i j g g1 t Hj H;
    cbn [uid_match_loop] in H; [discriminate|].
  destruct (j <? UID_SIZE) eqn:Hlt.
  - apply Z.ltb_lt in Hlt.
    replace (Z.to_nat (UID_SIZE - j))
      with (S (Z.to_nat (UID_SIZE - (j + 1)))) by lia.
    rewrite count_up_S. cbn [map].
    unfold EEPROM_read, bind at 1 in H. cbn in H.
    destruct (EEPROM (i * UID_SIZE + j) =? uid_at uid j); cbn in H;
      [|discriminate].
    destruct (uid_match_loop EEPROM fuel uid i (j + 1) g)
      as [[[b' g2] t2]|e] eqn:Hr; [|discriminate].
    inversion H; subst. apply IH in Hr; [|lia]. subst t2. reflexivity.
  - apply Z.ltb_ge in Hlt. replace (Z.to_nat (UID_SIZE - j)) with 0%nat by lia.
    inversion H; subst. reflexivity.
Qed.

Lemma isRecognized_loop_first_match fuel :
  forall uid i0 g g1 t,
    0 <= i0 <= MAX_USERS ->
    isRecognized_loop EEPROM fuel uid i0 g = Ok (true, g1, t) ->
    exists i t0,
      i0 <= i < MAX_USERS
      /\ bytes_eqb (slot EEPROM i) (uid_bytes uid) = true
      /\ (forall k, i0 <= k < i ->
                    bytes_eqb (slot EEPROM k) (uid_bytes uid) = false)
      /\ t = t0 ++ slot_reads i.
Proof.
  induction fuel as [|fuel IH]; intros uid i0 g g1 t Hi H;
    cbn [isRecognized_loop] in H; [discriminate|].
  destruct (i0 <? MAX_USERS) eqn:Hlt; [|discriminate].
  apply Z.ltb_lt in Hlt. unfold bind in H.
  destruct (uid_match_loop EEPROM (S fuel) uid i0 0 g)
    as [[[m g2] t2]|e] eqn:Hm; [|discriminate].
  pose proof (uid_match_loop_frame _ _ _ _ _ _ _ _ Hm) as [-> _].
  pose proof Hm as Hb.
  apply uid_match_loop_sound in Hb; [|unfold UID_SIZE; lia].
  assert (Hslot : bytes_eqb (slot EEPROM i0) (uid_bytes uid) = m).
  { unfold slot, uid_bytes. rewrite bytes_eqb_map. symmetry. exact Hb. }
  destruct m.
  - apply uid_match_loop_reads in Hm; [|unfold UID_SIZE; lia].
    cbn in H. inversion H; subst.
    exists i0, []. repeat split; try lia; try assumption.
  - destruct (isRecognized_loop EEPROM fuel uid (i0 + 1) g)
      as [[[b' g3] t3]|e] eqn:Hr; [|discriminate].
    inversion H; subst.
    apply IH in Hr; [|lia].
    destruct Hr as [i [t0 [Hrange [Hmi [Hbefore ->]]]]].
    exists i, (t2 ++ t0). rewrite app_assoc.
    repeat split; try lia; try assumption.
    intros k Hk. destruct (Z.eq_dec k i0) as [->|Hne]; [exact Hslot|].
    apply Hbefore. lia.
Qed.

Lemma isRecognized_first_match fuel uid g g1 t :
  isRecognized EEPROM fuel uid g = Ok (true, g1, t) ->
  exists i t0,
    0 <= i < MAX_USERS
    /\ bytes_eqb (slot EEPROM i) (uid_bytes uid) = true
    /\ (forall k, 0 <= k < i ->
                  bytes_eqb (slot EEPROM k) (uid_bytes uid) = false)
    /\ t = t0 ++ slot_reads i.
Proof.
  apply isRecognized_loop_first_match. unfold MAX_USERS. lia.
Qed.

(** Every way a step of the task can go. *)
Lemma servo_step_cases fuel r pc g pc' g' tr :
  servo_step EEPROM fuel r pc g = Ok (pc', g', tr) ->
  match pc with
  | AtPoll =>
      (pc' = AtPoll /\ g' = g /\ tr = [TaskDelay 50])
      \/ (pc' = AtCycleEnd /\ g' = g /\ forallb is_eeprom_read tr = true)
      \/ (pc' = AtSweepUp /\ g' = set_pos 0 g /\ beenFed g = false
          /\ exists reads,
               isRecognized EEPROM fuel (uidByte r) g = Ok (true, g, reads)
               /\ tr = reads ++ [SerialPrint "Granted"])
  | AtSweepUp =>
      (pos g <= 45 /\ pc' = AtSweepUp /\ g' = set_pos (pos g + 1) g
       /\ tr = profile_step (pos g))
      \/ (45 < pos g /\ pc' = AtSweepDown /\ g' = set_pos 45 g /\ tr = [])
  | AtSweepDown =>
      (0 <= pos g /\ pc' = AtSweepDown /\ g' = set_pos (pos g - 1) g
       /\ tr = profile_step (pos g))
      \/ (pos g < 0 /\ pc' = AtCycleEnd /\ g' = set_beenFed true g /\ tr = [])
  | AtCycleEnd =>
      pc' = AtPoll /\ g' = g /\ tr = [TaskDelay 1000; LcdClear]
  end.
Proof.
  intros H. destruct pc; cbn [servo_step] in H.
  - destruct (negb (PICC_IsNewCardPresent r) || negb (PICC_ReadCardSerial r)).
    + cbn in H. inversion H; subst. left. repeat split.
    + unfold bind at 1 in H.
      destruct (isRecognized EEPROM fuel (uidByte r) g)
        as [[[b g1] t1]|e] eqn:Hrec; [|discriminate].
      destruct (isRecognized_frame _ _ _ _ _ _ Hrec) as [-> Ht1].
      destruct b.
      * unfold bind, gets in H. cbn in H.
        destruct (beenFed g) eqn:Hfed; cbn in H; inversion H; subst.
        -- right. left. rewrite app_nil_r. repeat split. exact Ht1.
        -- right. right. repeat split. exists t1. split; reflexivity.
      * cbn in H. inversion H; subst.
        right. left. rewrite app_nil_r. repeat split. exact Ht1.
  - unfold bind, gets in H. cbn in H.
    destruct (pos g <=? 45) eqn:Hp; cbn in H; inversion H; subst.
    + left. apply Z.leb_le in Hp. repeat split. exact Hp.
    + right. apply Z.leb_gt in Hp. repeat split. exact Hp.
  - unfold bind, gets in H. cbn in H.
    destruct (pos g >=? 0) eqn:Hp; cbn in H; inversion H; subst.
    + left. rewrite Z.geb_le in Hp. repeat split. exact Hp.
    + right. rewrite Z.geb_leb in Hp. apply Z.leb_gt in Hp.
      repeat split. exact Hp.
  - cbn in H. inversion H; subst. repeat split.
Qed.

End ServoSteps.

(** ** The tasks together *)

Section System.

Variable EEPROM : Z -> Z.

(** An iteration of [resetFeederTask] that returns had a non-zero interval
    and went one of two ways. *)
Lemma resetFeederTask_cycle_inv now g g' tr :
  resetFeederTask_cycle now g = Ok (tt, g', tr) ->
  interval g <> 0
  /\ (((Z.rem (to_byte (minute now)) (interval g) =? 0)
        && (to_byte (second now) =? 0) = true
       /\ g' = set_beenFed false (set_nowDT now g)
       /\ tr = [SerialPrintln "Ready to Feed"; TaskDelay 100])
      \/ ((Z.rem (to_byte (minute now)) (interval g) =? 0)
          && (to_byte (second now) =? 0) = false
          /\ g' = set_nowDT now g /\ tr = [TaskDelay 100])).
Proof.
  intros H. destruct (Z.eq_dec (interval g) 0) as [Hz|Hnz].
  - rewrite (resetFeederTask_cycle_zero now g Hz) in H. discriminate.
  - split; [exact Hnz|]. rewrite (resetFeederTask_cycle_ok now g Hnz) in H.
    destruct ((Z.rem (to_byte (minute now)) (interval g) =? 0)
              && (to_byte (second now) =? 0));
      inversion H; subst; [left|right]; repeat split.
Qed.

(** No step but one of [adjustIntervalTask] changes the interval. *)
Lemma sys_step_interval s l s' :
  sys_step EEPROM s l s' ->
  (forall a b, l <> RunAdjust a b) ->
  interval (globals_of s') = interval (globals_of s).
Proof.
  intros Hstep Hl. destruct Hstep as [s now g' tr Hv H|s fuel r pc' g' tr H|
                                     s a b g' tr H]; cbn.
  - apply resetFeederTask_cycle_inv in H.
    destruct H as [_ [[_ [-> _]]|[_ [-> _]]]]; reflexivity.
  - apply servo_step_cases in H.
    destruct (servo_at s); cbn in H;
      break_cases; subst; reflexivity.
  - exfalso. apply (Hl a b). reflexivity.
Qed.

(** The interval is always a value of [int]. *)
Lemma reachable_in_int s :
  reachable EEPROM s -> in_int (interval (globals_of s)).
Proof.
  induction 1 as [|s l s' _ IH Hstep].
  - unfold in_int, INT_MIN, INT_MAX. cbn. lia.
  - destruct l as [now|r|a b];
      try (rewrite (sys_step_interval _ _ _ Hstep) by discriminate;
           exact IH).
    inversion Hstep as [| |s0 a0 b0 g' tr H]; subst. cbn.
    destruct (adjustIntervalTask_cycle_effect a b (globals_of s) IH)
      as [g1 [t1 [H1 [Hi _]]]].
    rewrite H1 in H. inversion H; subst. rewrite Hi. apply wrap32_in_int.
Qed.

(** Iterations of [adjustIntervalTask] are steps of the system. *)
Lemma adjust_run_reachable sigs :
  forall s g' tr,
    reachable EEPROM s ->
    adjust_run sigs (globals_of s) = Ok (tt, g', tr) ->
    exists s', reachable EEPROM s' /\ globals_of s' = g'
               /\ servo_at s' = servo_at s.
Proof.
  induction sigs as [|[a b] rest IH]; intros s g' tr Hr H.
  - cbn in H. inversion H; subst. exists s. repeat split. exact Hr.
  - cbn [adjust_run] in H. unfold bind in H.
    destruct (adjustIntervalTask_cycle a b (globals_of s))
      as [[[[] g1] t1]|e] eqn:H1; [|discriminate].
    destruct (adjust_run rest g1) as [[[[] g2] t2]|e] eqn:H2; [|discriminate].
    inversion H; subst.
    destruct (IH {| globals_of := g1; servo_at := servo_at s;
                    history := history s ++ tag AdjustInterval t1 |}
                 g' t2) as [s' [Hr' [Hg Hpc]]].
    + eapply reach_step; [exact Hr|]. apply step_adjust. exact H1.
    + exact H2.
    + exists s'. repeat split; assumption.
Qed.

End System.

Lemma press_edges_decrement_presses k :
  forall old,
    press_edges old (map snd (decrement_presses k)) = Z.of_nat k
    /\ press_edges old (map fst (decrement_presses k)) = 0.
Proof.
  induction k as [|k IH]; intros old; [split; reflexivity|].
  change (decrement_presses (S k))
    with ((HIGH, HIGH) :: (HIGH, LOW) :: decrement_presses k).
  cbn [map fst snd press_edges].
  destruct (IH LOW) as [Hd _]. destruct (IH HIGH) as [_ Hi].
  rewrite Hd, Hi. unfold press_edge. split.
  - change (HIGH =? LOW) with false. rewrite andb_false_r.
    change (LOW =? HIGH) with false. change (LOW =? LOW) with true.
    cbn [negb andb]. lia.
  - change (HIGH =? LOW) with false. rewrite andb_false_r.
    reflexivity.
Qed.

(** [k] presses of the decrement button take [k] off the interval. *)
Lemma decrement_presses_run k g :
  in_int (interval g) ->
  exists g' tr,
    adjust_run (decrement_presses k) g = Ok (tt, g', tr)
    /\ interval g' = wrap32 (interval g - Z.of_nat k).
Proof.
  intros Hin.
  destruct (adjust_run_edges (decrement_presses k) g Hin)
    as [g' [tr [Hrun [Hi _]]]].
  exists g', tr. split; [exact Hrun|].
  destruct (press_edges_decrement_presses k (oldDecrVal g)) as [Hd _].
  destruct (press_edges_decrement_presses k (oldIncrVal g)) as [_ Hz].
  rewrite Hi, Hd, Hz. f_equal. lia.
Qed.

(** C7: the interval has no floor.  Five presses of the decrement button
    after start-up leave the interval at 0, in a state the three tasks can
    be in, where every iteration of [resetFeederTask], at whatever time,
    takes the remainder by zero; and every value of [int] below the default
    5 is the interval of some state the system can be in. *)
Theorem interval_has_no_floor (EEPROM : Z -> Z) :
  (exists g tr,
     adjust_run (decrement_presses 5) initial_globals = Ok (tt, g, tr)
     /\ interval g = 0
     /\ (forall now, resetFeederTask_cycle now g = Err DivideByZero)
     /\ exists s, reachable EEPROM s /\ globals_of s = g)
  /\ (forall b, INT_MIN <= b <= 5 ->
      exists s, reachable EEPROM s /\ interval (globals_of s) = b).
Proof.
  assert (Hin : in_int (interval initial_globals))
    by (unfold in_int, INT_MIN, INT_MAX; cbn; lia).
  split.
  - destruct (decrement_presses_run 5 initial_globals Hin)
      as [g [tr [Hrun Hi]]].
    exists g, tr. split; [exact Hrun|].
    assert (Hz : interval g = 0) by (rewrite Hi; reflexivity).
    split; [exact Hz|]. split.
    + intros now. apply resetFeederTask_cycle_zero, Hz.
    + destruct (adjust_run_reachable EEPROM _ sys_init g tr
                  (reach_init EEPROM) Hrun) as [s [Hr [Hg _]]].
      exists s. split; assumption.
  - intros b Hb.
    destruct (decrement_presses_run (Z.to_nat (5 - b)) initial_globals Hin)
      as [g [tr [Hrun Hi]]].
    destruct (adjust_run_reachable EEPROM _ sys_init g tr
                (reach_init EEPROM) Hrun) as [s [Hr [Hg _]]].
    exists s. split; [exact Hr|]. rewrite Hg, Hi.
    change (interval initial_globals) with 5.
    rewrite Z2Nat.id by lia.
    replace (5 - (5 - b)) with b by lia.
    apply wrap32_id. unfold in_int, INT_MAX. unfold INT_MIN in *. lia.
Qed.

(** The interval can be negative. *)
Lemma interval_has_no_floor_witness :
  exists s, reachable blank_eeprom s /\ interval (globals_of s) = -1.
Proof.
  apply (proj2 (interval_has_no_floor blank_eeprom) (-1)).
  unfold INT_MIN. lia.
Defined.

(** ** Access & Dispense Controller, one iteration *)

Lemma set_pos_same g : set_pos (pos g) g = g.
Proof. destruct g; reflexivity. Qed.

(** The first [for], entered with [n] positions to go. *)
Lemma sweep_up_from n :
  forall fuel g,
    pos g = 46 - Z.of_nat n ->
    (n < fuel)%nat ->
    sweep_up fuel g
      = Ok (tt, set_pos 46 g, flat_map profile_step (count_up (pos g) n)).
Proof.
  induction n as [|n IH]; intros fuel g Hp Hf;
    (destruct fuel as [|fuel]; [lia|]); cbn [sweep_up];
    unfold bind at 1, gets at 1.
  - replace (pos g <=? 45) with false by (symmetry; apply Z.leb_gt; lia).
    cbn. rewrite <- (set_pos_same g) at 1. do 4 f_equal. lia.
  - replace (pos g <=? 45) with true by (symmetry; apply Z.leb_le; lia).
    unfold bind, emit, modify.
    rewrite (IH fuel (set_pos (pos g + 1) g)) by (cbn [pos set_pos]; lia).
    rewrite count_up_S. reflexivity.
Qed.

(** The second [for], entered with [n] positions to go. *)
Lemma sweep_down_from n :
  forall fuel g,
    pos g = Z.of_nat n - 1 ->
    (n < fuel)%nat ->
    sweep_down fuel g
      = Ok (tt, set_pos (-1) g, flat_map profile_step (rev (count_up 0 n))).
Proof.
  induction n as [|n IH]; intros fuel g Hp Hf;
    (destruct fuel as [|fuel]; [lia|]); cbn [sweep_down];
    unfold bind at 1, gets at 1.
  - replace (pos g >=? 0) with false
      by (symmetry; rewrite Z.geb_leb; apply Z.leb_gt; lia).
    cbn. rewrite <- (set_pos_same g) at 1. do 4 f_equal. lia.
  - replace (pos g >=? 0) with true
      by (symmetry; rewrite Z.geb_leb; apply Z.leb_le; lia).
    unfold bind, emit, modify.
    rewrite (IH fuel (set_pos (pos g - 1) g)) by (cbn [pos set_pos]; lia).
    rewrite count_up_snoc, rev_app_distr. cbn [rev app flat_map].
    replace (0 + Z.of_nat n) with (pos g) by lia. reflexivity.
Qed.

Lemma actuator_commands_app t1 t2 :
  actuator_commands (t1 ++ t2) = actuator_commands t1 ++ actuator_commands t2.
Proof. apply flat_map_app. Qed.

Lemma actuator_commands_reads t :
  forallb is_eeprom_read t = true -> actuator_commands t = [].
Proof.
  induction t as [|e t IH]; cbn; [reflexivity|].
  intros H. apply andb_prop in H. destruct H as [He H].
  destruct e; try discriminate. apply IH, H.
Qed.

(** C2: in an iteration that reads a tag [isRecognized] recognizes while
    [beenFed] is false, the task prints "Granted", sends the actuator the
    positions 0, 1, ..., 45 and then 45, 44, ..., 0, each followed by a delay
    of 100 ms, sets [beenFed], and closes the iteration; nothing else goes to
    the actuator. *)
Theorem servoMotorTask_cycle_dispenses EEPROM fuel r g g1 reads :
  (47 <= fuel)%nat ->
  PICC_IsNewCardPresent r = true ->
  PICC_ReadCardSerial r = true ->
  isRecognized EEPROM fuel (uidByte r) g = Ok (true, g1, reads) ->
  beenFed g = false ->
  exists g' tr,
    servoMotorTask_cycle EEPROM fuel r g = Ok (tt, g', tr)
    /\ tr = reads ++ SerialPrint "Granted" :: dispense_profile
                  ++ [TaskDelay 1000; LcdClear]
    /\ actuator_commands tr = count_up 0 46 ++ rev (count_up 0 46)
    /\ beenFed g' = true
    /\ interval g' = interval g.
Proof.
  intros Hf Hpresent Hread Hrun Hfed.
  destruct (isRecognized_frame _ _ _ _ _ _ _ Hrun) as [-> Hreads].
  unfold servoMotorTask_cycle. rewrite Hpresent, Hread. cbn [negb orb].
  rewrite (bind_ok _ _ _ _ _ _ Hrun). cbn [when].
  unfold bind, gets, emit, modify. rewrite Hfed. cbn [negb when].
  rewrite (sweep_up_from 46 fuel (set_pos 0 g)) by (cbn; lia).
  rewrite (sweep_down_from 46 fuel (set_pos 45 (set_pos 46 (set_pos 0 g))))
    by (cbn; lia).
  do 2 eexists. split; [reflexivity|].
  split; [|split; [|split; reflexivity]].
  - unfold dispense_profile. cbn [pos set_pos]. f_equal.
  - rewrite actuator_commands_app, (actuator_commands_reads _ Hreads).
    reflexivity.
Qed.

(** Scenario B: the whitelist holds AA BB CC DD and the reader reports that
    identifier while [beenFed] is false. *)
Lemma servoMotorTask_cycle_dispenses_witness :
  exists g' tr,
    servoMotorTask_cycle scenario_eeprom 47 scenario_reader initial_globals
      = Ok (tt, g', tr)
    /\ actuator_commands tr = count_up 0 46 ++ rev (count_up 0 46)
    /\ beenFed g' = true.
Proof.
  destruct (servoMotorTask_cycle_dispenses scenario_eeprom 47
              scenario_reader initial_globals initial_globals
              [EepromRead 0; EepromRead 1; EepromRead 2; EepromRead 3])
    as [g' [tr [Hrun [_ [Hact [Hfed _]]]]]].
  - lia.
  - reflexivity.
  - reflexivity.
  - reflexivity.
  - reflexivity.
  - exists g', tr. repeat split; assumption.
Defined.

(** C8: in an iteration that reads a tag [isRecognized] does not recognize,
    the task only reads the EEPROM and closes the iteration: nothing goes to
    the actuator and no global changes, [beenFed] and [interval] among
    them. *)
Theorem servoMotorTask_cycle_unrecognized EEPROM fuel r g g1 reads :
  PICC_IsNewCardPresent r = true ->
  PICC_ReadCardSerial r = true ->
  isRecognized EEPROM fuel (uidByte r) g = Ok (false, g1, reads) ->
  servoMotorTask_cycle EEPROM fuel r g
    = Ok (tt, g, reads ++ [TaskDelay 1000; LcdClear])
  /\ actuator_commands (reads ++ [TaskDelay 1000; LcdClear]) = [].
Proof.
  intros Hpresent Hread Hrun.
  destruct (isRecognized_frame _ _ _ _ _ _ _ Hrun) as [-> Hreads].
  unfold servoMotorTask_cycle. rewrite Hpresent, Hread. cbn [negb orb].
  rewrite (bind_ok _ _ _ _ _ _ Hrun). cbn.
  split; [reflexivity|].
  rewrite actuator_commands_app, (actuator_commands_reads _ Hreads).
  reflexivity.
Qed.

(** Scenario D: the reader reports 01 02 03 04, which the whitelist of
    scenario B does not hold; the lookup reads the first byte of each of the
    ten slots. *)
Lemma servoMotorTask_cycle_unrecognized_witness :
  servoMotorTask_cycle scenario_eeprom 15
    (mkReader true true [1; 2; 3; 4]) initial_globals
    = Ok (tt, initial_globals,
          map EepromRead [0; 4; 8; 12; 16; 20; 24; 28; 32; 36]
          ++ [TaskDelay 1000; LcdClear])
  /\ actuator_commands
       (map EepromRead [0; 4; 8; 12; 16; 20; 24; 28; 32; 36]
        ++ [TaskDelay 1000; LcdClear]) = [].
Proof.
  apply (servoMotorTask_cycle_unrecognized scenario_eeprom 15
           (mkReader true true [1; 2; 3; 4]) initial_globals initial_globals).
  - reflexivity.
  - reflexivity.
  - reflexivity.
Defined.

(** C9: when a tag is present but its serial cannot be read, the iteration
    is the one of a poll that finds no tag: a delay of 50 ms and nothing
    else -- no EEPROM read, no actuator command, no output on the serial
    line or the display, no global changed -- whatever the EEPROM, the
    buffer of the reader and the globals hold; the iteration returns
    normally and the task is back at its poll. *)
Theorem servoMotorTask_cycle_partial_read
  EEPROM EEPROM' fuel fuel' uid uid' serial g :
  servoMotorTask_cycle EEPROM fuel (mkReader true false uid) g
    = Ok (tt, g, [TaskDelay 50])
  /\ servoMotorTask_cycle EEPROM' fuel' (mkReader false serial uid') g
     = servoMotorTask_cycle EEPROM fuel (mkReader true false uid) g
  /\ servo_step EEPROM fuel (mkReader true false uid) AtPoll g
     = Ok (AtPoll, g, [TaskDelay 50]).
Proof. repeat split. Qed.

(** ** The feeding window across the three tasks *)

Lemma events_of_app t h1 h2 :
  events_of t (h1 ++ h2) = events_of t h1 ++ events_of t h2.
Proof. unfold events_of. rewrite filter_app, map_app. reflexivity. Qed.

Lemma events_of_tag t t' tr :
  events_of t (tag t' tr) = if task_eqb t' t then tr else [].
Proof.
  unfold events_of, tag.
  induction tr as [|e tr IH]; cbn; [destruct (task_eqb t' t); reflexivity|].
  destruct (task_eqb t' t); cbn; rewrite IH; reflexivity.
Qed.

Section Window.

Variable EEPROM : Z -> Z.

(** [servo_inv] holds in every state the system can be in. *)
Lemma reachable_servo_inv s : reachable EEPROM s -> servo_inv s.
Proof.
  induction 1 as [|s l s' Hr IH Hstep]; [exact I|].
  destruct Hstep as [s now g' tr Hv H|s fuel r pc' g' tr H|s a b g' tr H].
  - apply resetFeederTask_cycle_inv in H.
    unfold servo_inv in *. cbn [servo_at globals_of history].
    rewrite events_of_app, events_of_tag, app_nil_r.
    destruct H as [_ [[_ [-> _]]|[_ [-> _]]]]; exact IH.
  - apply servo_step_cases in H.
    unfold servo_inv in *. cbn [servo_at globals_of history].
    rewrite events_of_app, events_of_tag. cbn [task_eqb].
    destruct (servo_at s).
    + destruct H as [[-> _]|[[-> _]|[-> [-> [_ [reads [_ ->]]]]]]];
        try exact I.
      cbn [pos set_pos]. split; [lia|].
      eexists. cbn. rewrite app_nil_r. reflexivity.
    + destruct IH as [Hp [h Hh]].
      destruct H as [[Hle [-> [-> ->]]]|[Hgt [-> [-> ->]]]];
        cbn [pos set_pos].
      * split; [lia|]. exists h. rewrite Hh, <- app_assoc. f_equal.
        replace (Z.to_nat (pos (globals_of s) + 1))
          with (S (Z.to_nat (pos (globals_of s)))) by lia.
        rewrite count_up_snoc, flat_map_app. cbn [flat_map].
        rewrite app_nil_r, Z2Nat.id by lia. reflexivity.
      * split; [lia|]. exists h. rewrite Hh, app_nil_r.
        replace (pos (globals_of s)) with 46 by lia. reflexivity.
    + destruct IH as [Hp [h Hh]].
      destruct H as [[Hle [-> [-> ->]]]|[Hlt [-> [-> ->]]]];
        cbn [pos set_pos]; [|exact I].
      split; [lia|]. exists h. rewrite Hh, <- !app_assoc. do 2 f_equal.
      replace (pos (globals_of s) - 1 + 1) with (pos (globals_of s)) by lia.
      replace (Z.to_nat (45 - (pos (globals_of s) - 1)))
        with (S (Z.to_nat (45 - pos (globals_of s)))) by lia.
      rewrite count_up_S. cbn [rev]. rewrite flat_map_app. cbn [flat_map].
      rewrite app_nil_r. reflexivity.
    + destruct H as [-> _]. exact I.
  - destruct (adjustIntervalTask_cycle_effect a b (globals_of s)
                (reachable_in_int EEPROM s Hr))
      as [g1 [t1 [H1 [_ [_ [_ [_ [Hpos _]]]]]]]].
    rewrite H1 in H. inversion H; subst.
    unfold servo_inv in *. cbn [servo_at globals_of history].
    rewrite events_of_app, events_of_tag, app_nil_r, Hpos. exact IH.
Qed.

End Window.

Section FeedingWindow.

Variable EEPROM : Z -> Z.

(** Steps of [servoMotorTask] on its own are steps of the system. *)
Lemma servo_run_reachable fuel r n :
  forall s pc' g' tr,
    reachable EEPROM s ->
    servo_run EEPROM fuel r n (servo_at s) (globals_of s) = Ok (pc', g', tr) ->
    reachable EEPROM
      {| globals_of := g'; servo_at := pc';
         history := history s ++ tag ServoMotor tr |}.
Proof.
  induction n as [|n IH]; intros s pc' g' tr Hr H.
  - cbn in H. inversion H; subst. cbn. rewrite app_nil_r.
    destruct s; exact Hr.
  - cbn [servo_run] in H. unfold bind in H.
    destruct (servo_step EEPROM fuel r (servo_at s) (globals_of s))
      as [[[pc1 g1] t1]|e] eqn:H1; [|discriminate].
    destruct (servo_run EEPROM fuel r n pc1 g1)
      as [[[pc2 g2] t2]|e] eqn:H2; [|discriminate].
    inversion H; subst.
    unfold tag. rewrite map_app, app_assoc.
    apply (IH {| globals_of := g1; servo_at := pc1;
                 history := history s ++ tag ServoMotor t1 |}).
    + eapply reach_step; [exact Hr|]. eapply step_servo. exact H1.
    + exact H2.
Qed.

(** C5: in every state the system can be in, a step that turns [beenFed]
    from false to true is the step of [servoMotorTask] that leaves the
    return sweep -- it emits nothing, and what the task has emitted up to it
    ends with the whole dispense profile -- and a step that turns [beenFed]
    from true to false is an iteration of [resetFeederTask] that reads a
    time with [minute mod interval = 0] and [second = 0].  Every other step
    leaves [beenFed] as it is. *)
Theorem beenFed_transitions s l s' :
  reachable EEPROM s ->
  sys_step EEPROM s l s' ->
  (beenFed (globals_of s) = false -> beenFed (globals_of s') = true ->
   (exists r, l = RunServo r)
   /\ servo_at s = AtSweepDown /\ servo_at s' = AtCycleEnd
   /\ history s' = history s
   /\ exists h, events_of ServoMotor (history s') = h ++ dispense_profile)
  /\ (beenFed (globals_of s) = true -> beenFed (globals_of s') = false ->
      exists now, l = RunReset now
                  /\ at_boundary now (interval (globals_of s))).
Proof.
  intros Hr Hstep.
  pose proof (reachable_servo_inv EEPROM s Hr) as Hinv.
  pose proof (reachable_in_int EEPROM s Hr) as Hin.
  destruct Hstep as [s now g' tr Hv H|s fuel r pc' g' tr H|s a b g' tr H];
    cbn [globals_of servo_at history].
  - apply resetFeederTask_cycle_inv in H.
    destruct H as [Hnz [[Htest [-> _]]|[_ [-> _]]]]; cbn [beenFed set_beenFed
      set_nowDT]; (split; [congruence|]).
    + intros _ _. exists now. split; [reflexivity|].
      apply boundary_test; assumption.
    + congruence.
  - apply servo_step_cases in H. unfold servo_inv in Hinv.
    destruct (servo_at s);
      break_cases; subst; cbn [beenFed set_beenFed set_pos];
      try (split; congruence).
    split; [|congruence]. intros _ _.
    split; [exists r; reflexivity|]. repeat split.
    + cbn. apply app_nil_r.
    + cbn [tag map]. rewrite app_nil_r.
      match goal with
      | Hh : events_of ServoMotor (history s) = ?h ++ _ |- _ =>
          exists h; rewrite Hh
      end.
      replace (pos (globals_of s)) with (-1) by lia. reflexivity.
  - destruct (adjustIntervalTask_cycle_effect a b (globals_of s) Hin)
      as [g1 [t1 [H1 [_ [_ [_ [Hfed _]]]]]]].
    rewrite H1 in H. inversion H; subst. rewrite Hfed.
    split; congruence.
Qed.

End FeedingWindow.

Lemma scenario_sweep_done_reachable :
  reachable scenario_eeprom scenario_sweep_done.
Proof.
  apply (servo_run_reachable scenario_eeprom 15 scenario_reader 94 sys_init).
  - apply reach_init.
  - vm_compute. reflexivity.
Qed.

Lemma scenario_fed_step :
  sys_step scenario_eeprom scenario_sweep_done (RunServo scenario_reader)
    scenario_fed.
Proof.
  apply (step_servo scenario_eeprom scenario_sweep_done 15 scenario_reader
           AtCycleEnd (set_beenFed true (set_pos (-1) initial_globals)) []).
  reflexivity.
Qed.

(** Scenario B, interleaved: the step that completes the dispense. *)
Lemma beenFed_transitions_witness :
  (exists r, RunServo scenario_reader = RunServo r)
  /\ servo_at scenario_sweep_done = AtSweepDown
  /\ servo_at scenario_fed = AtCycleEnd
  /\ history scenario_fed = history scenario_sweep_done
  /\ exists h, events_of ServoMotor (history scenario_fed)
               = h ++ dispense_profile.
Proof.
  apply (proj1 (beenFed_transitions scenario_eeprom scenario_sweep_done
                  (RunServo scenario_reader) scenario_fed
                  scenario_sweep_done_reachable scenario_fed_step)).
  - reflexivity.
  - reflexivity.
Defined.

(** An iteration of [adjustIntervalTask] always returns; it touches neither
    [beenFed] nor [pos] and sends nothing to the actuator. *)
Lemma adjustIntervalTask_cycle_frame a b g :
  exists g' tr,
    adjustIntervalTask_cycle a b g = Ok (tt, g', tr)
    /\ beenFed g' = beenFed g /\ pos g' = pos g
    /\ no_actuation tr = true.
Proof.
  unfold adjustIntervalTask_cycle, bind, gets, modify, emit, when.
  destruct (a =? oldIncrVal g); destruct (a =? LOW);
    destruct (b =? oldDecrVal g) eqn:Eb; destruct (b =? LOW) eqn:Ebl;
    cbn; rewrite ?Eb, ?Ebl; cbn;
    do 2 eexists; (split; [reflexivity|]); repeat split.
Qed.

Lemma no_actuation_reads t :
  forallb is_eeprom_read t = true -> no_actuation t = true.
Proof.
  unfold no_actuation. induction t as [|e t IH]; cbn; [reflexivity|].
  intros H. apply andb_prop in H. destruct H as [He H].
  rewrite (IH H). destruct e; try discriminate. reflexivity.
Qed.

Section NoSecondDispense.

Variable EEPROM : Z -> Z.

(** Once fed and between two dispenses, a step inside the window keeps it
    so and sends nothing to the actuator. *)
Lemma window_step_quiet s l s' :
  beenFed (globals_of s) = true ->
  servo_at s = AtPoll \/ servo_at s = AtCycleEnd ->
  window_step EEPROM s l s' ->
  beenFed (globals_of s') = true
  /\ (servo_at s' = AtPoll \/ servo_at s' = AtCycleEnd)
  /\ exists h, history s' = history s ++ h
               /\ no_actuation (map snd h) = true.
Proof.
  intros Hfed Hpc [Hstep Hwin].
  destruct Hstep as [s now g' tr Hv H|s fuel r pc' g' tr H|s a b g' tr H];
    cbn [globals_of servo_at history].
  - apply resetFeederTask_cycle_inv in H.
    destruct H as [Hnz [[Htest [-> ->]]|[_ [-> ->]]]].
    + exfalso. apply (Hwin now eq_refl).
      apply boundary_test; assumption.
    + repeat split; [exact Hfed|exact Hpc|].
      eexists. split; reflexivity.
  - apply servo_step_cases in H.
    destruct Hpc as [Hpc|Hpc]; rewrite Hpc in H.
    + destruct H as [[-> [-> ->]]|[[-> [-> Hreads]]|[_ [_ [Hnot _]]]]].
      * repeat split; [exact Hfed|left; reflexivity|].
        eexists. split; reflexivity.
      * repeat split; [exact Hfed|right; reflexivity|].
        eexists. split; [reflexivity|].
        unfold tag. rewrite map_map, map_id.
        apply no_actuation_reads, Hreads.
      * congruence.
    + destruct H as [-> [-> ->]].
      repeat split; [exact Hfed|left; reflexivity|].
      eexists. split; reflexivity.
  - destruct (adjustIntervalTask_cycle_frame a b (globals_of s))
      as [g1 [t1 [H1 [Hf [_ Hq]]]]].
    rewrite H1 in H. inversion H; subst.
    repeat split; [congruence|exact Hpc|].
    eexists. split; [reflexivity|].
    unfold tag. rewrite map_map, map_id. exact Hq.
Qed.

Lemma window_steps_quiet s ls s' :
  window_steps EEPROM s ls s' ->
  beenFed (globals_of s) = true ->
  servo_at s = AtPoll \/ servo_at s = AtCycleEnd ->
  beenFed (globals_of s') = true
  /\ exists h, history s' = history s ++ h
               /\ no_actuation (map snd h) = true.
Proof.
  induction 1 as [s|s l s1 ls s' Hstep _ IH]; intros Hfed Hpc.
  - split; [exact Hfed|]. exists []. rewrite app_nil_r. split; reflexivity.
  - destruct (window_step_quiet s l s1 Hfed Hpc Hstep)
      as [Hfed1 [Hpc1 [h1 [Hh1 Hq1]]]].
    destruct (IH Hfed1 Hpc1) as [Hfed' [h2 [Hh2 Hq2]]].
    split; [exact Hfed'|]. exists (h1 ++ h2). split.
    + rewrite Hh2, Hh1, app_assoc. reflexivity.
    + unfold no_actuation in *. rewrite map_app, forallb_app, Hq1, Hq2.
      reflexivity.
Qed.

(** C3: after the step of [servoMotorTask] that completes a dispense and
    sets [beenFed], however the three tasks go on -- whatever tags the
    reader reports, whatever the buttons do, whatever times the clock shows
    short of an interval boundary -- [beenFed] stays true and no command goes
    to the actuator. *)
Theorem no_second_dispense s0 r s ls s' :
  sys_step EEPROM s0 (RunServo r) s ->
  beenFed (globals_of s0) = false ->
  beenFed (globals_of s) = true ->
  window_steps EEPROM s ls s' ->
  beenFed (globals_of s') = true
  /\ exists h, history s' = history s ++ h
               /\ no_actuation (map snd h) = true.
Proof.
  intros Hstep Hbefore Hafter Hwin.
  apply (window_steps_quiet s ls s' Hwin Hafter).
  inversion Hstep as [|s1 fuel r1 pc' g' tr H|]; subst.
  apply servo_step_cases in H. cbn [servo_at globals_of] in *.
  destruct (servo_at s0);
    break_cases; subst; cbn [beenFed set_pos set_beenFed] in *;
    try congruence; auto.
Qed.

(** Iterations of [servoMotorTask] with [beenFed] set never move the
    actuator and leave the globals alone, whatever tags they read. *)
Lemma servo_cycles_fed fuel rs :
  forall g,
    (15 <= fuel)%nat ->
    beenFed g = true ->
    exists tr,
      servo_cycles EEPROM fuel rs g = Ok (tt, g, tr)
      /\ no_actuation tr = true.
Proof.
  induction rs as [|r rs IH]; intros g Hf Hfed.
  - exists []. split; reflexivity.
  - destruct (IH g Hf Hfed) as [t2 [H2 Hq2]].
    assert (H1 : exists t1, servoMotorTask_cycle EEPROM fuel r g
                            = Ok (tt, g, t1) /\ no_actuation t1 = true).
    { unfold servoMotorTask_cycle.
      destruct (negb (PICC_IsNewCardPresent r)
                || negb (PICC_ReadCardSerial r)).
      - exists [TaskDelay 50]. split; reflexivity.
      - destruct (isRecognized_ok EEPROM fuel (uidByte r) g Hf)
          as [reads [Hrun Hreads]].
        rewrite (bind_ok _ _ _ _ _ _ Hrun).
        exists (reads ++ [TaskDelay 1000; LcdClear]). split.
        + destruct (some_slot_matches EEPROM (uidByte r));
            unfold when, bind, gets, emit; rewrite ?Hfed; reflexivity.
        + pose proof (no_actuation_reads _ Hreads) as Hq.
          unfold no_actuation in *. rewrite forallb_app, Hq. reflexivity. }
    destruct H1 as [t1 [H1 Hq1]].
    exists (t1 ++ t2). cbn [servo_cycles].
    rewrite (bind_ok _ _ _ _ _ _ H1), H2. split; [reflexivity|].
    unfold no_actuation in *. rewrite forallb_app, Hq1, Hq2. reflexivity.
Qed.

End NoSecondDispense.

(** Scenario C, interleaved: after the dispense of scenario B the task
    closes its iteration, reads the whitelisted tag again, the clock shows
    minute 11, second 0 with an interval of 5, and the buttons are polled. *)
Lemma scenario_window :
  exists s',
    window_steps scenario_eeprom scenario_fed
      [RunServo scenario_reader; RunServo scenario_reader;
       RunReset (mkDateTime 11 0); RunAdjust HIGH HIGH] s'.
Proof.
  eexists.
  eapply window_cons.
  { split; [|discriminate].
    eapply (step_servo _ _ 15%nat). vm_compute. reflexivity. }
  eapply window_cons.
  { split; [|discriminate].
    eapply (step_servo _ _ 15%nat). vm_compute. reflexivity. }
  eapply window_cons.
  { split.
    - eapply step_reset.
      + unfold valid_time, is_byte. cbn. lia.
      + vm_compute. reflexivity.
    - intros now Heq. inversion Heq; subst.
      unfold at_boundary. cbn. intros [Hm _]. discriminate. }
  eapply window_cons.
  { split; [|discriminate].
    eapply step_adjust. vm_compute. reflexivity. }
  apply window_nil.
Qed.

Lemma no_second_dispense_witness :
  exists s',
    window_steps scenario_eeprom scenario_fed
      [RunServo scenario_reader; RunServo scenario_reader;
       RunReset (mkDateTime 11 0); RunAdjust HIGH HIGH] s'
    /\ beenFed (globals_of s') = true
    /\ exists h, history s' = history scenario_fed ++ h
                 /\ no_actuation (map snd h) = true.
Proof.
  destruct scenario_window as [s' Hwin].
  exists s'. split; [exact Hwin|].
  apply (no_second_dispense scenario_eeprom scenario_sweep_done
           scenario_reader scenario_fed
           [RunServo scenario_reader; RunServo scenario_reader;
            RunReset (mkDateTime 11 0); RunAdjust HIGH HIGH]
           s' scenario_fed_step).
  - reflexivity.
  - reflexivity.
  - exact Hwin.
Defined.

(** ** The iteration of [servoMotorTask] and its steps agree *)

Lemma prefix_trace_app {A : Type} t1 t2
  (res : result (A * globals * list event)) :
  prefix_trace t1 (prefix_trace t2 res) = prefix_trace (t1 ++ t2) res.
Proof.
  destruct res as [[[a g] t]|e]; cbn; [|reflexivity].
  rewrite app_assoc. reflexivity.
Qed.

Lemma bind_prefix {A B : Type} (c : M A) (k : A -> M B) g a g1 t1 :
  c g = Ok (a, g1, t1) -> bind c k g = prefix_trace t1 (k a g1).
Proof. intros H. unfold bind, prefix_trace. rewrite H. reflexivity. Qed.

Section Refinement.

Variable EEPROM : Z -> Z.
Variable fuel : nat.
Variable r : reader.

(** The first [for] is a run of steps from [AtSweepUp] to [AtSweepDown]. *)
Lemma sweep_up_steps f :
  forall g g1 t,
    sweep_up f g = Ok (tt, g1, t) ->
    exists n, forall m,
      servo_run EEPROM fuel r (n + m) AtSweepUp g
        = prefix_trace t (servo_run EEPROM fuel r m AtSweepDown (set_pos 45 g1)).
Proof.
  induction f as [|f IH]; intros g g1 t H; cbn [sweep_up] in H;
    [discriminate|].
  unfold bind at 1, gets at 1 in H.
  destruct (pos g <=? 45) eqn:Hp.
  - unfold bind, emit, modify in H.
    destruct (sweep_up f (set_pos (pos g + 1) g)) as [[[[] g2] t2]|e] eqn:Hrec;
      [|discriminate].
    inversion H; subst.
    destruct (IH _ _ _ Hrec) as [n Hn]. exists (S n). intros m.
    cbn [Nat.add servo_run].
    erewrite bind_prefix
      by (cbn [servo_step]; unfold bind, gets, emit, modify;
          rewrite Hp; reflexivity).
    rewrite Hn, prefix_trace_app. reflexivity.
  - inversion H; subst. exists 1%nat. intros m.
    cbn [Nat.add servo_run].
    erewrite bind_prefix
      by (cbn [servo_step]; unfold bind, gets, emit, modify;
          rewrite Hp; reflexivity).
    reflexivity.
Qed.

(** The second [for] and the assignment after it are a run of steps from
    [AtSweepDown] to [AtCycleEnd]. *)
Lemma sweep_down_steps f :
  forall g g1 t,
    sweep_down f g = Ok (tt, g1, t) ->
    exists n, forall m,
      servo_run EEPROM fuel r (n + m) AtSweepDown g
        = prefix_trace t
            (servo_run EEPROM fuel r m AtCycleEnd (set_beenFed true g1)).
Proof.
  induction f as [|f IH]; intros g g1 t H; cbn [sweep_down] in H;
    [discriminate|].
  unfold bind at 1, gets at 1 in H.
  destruct (pos g >=? 0) eqn:Hp.
  - unfold bind, emit, modify in H.
    destruct (sweep_down f (set_pos (pos g - 1) g))
      as [[[[] g2] t2]|e] eqn:Hrec; [|discriminate].
    inversion H; subst.
    destruct (IH _ _ _ Hrec) as [n Hn]. exists (S n). intros m.
    cbn [Nat.add servo_run].
    erewrite bind_prefix
      by (cbn [servo_step]; unfold bind, gets, emit, modify;
          rewrite Hp; reflexivity).
    rewrite Hn, prefix_trace_app. reflexivity.
  - inversion H; subst. exists 1%nat. intros m.
    cbn [Nat.add servo_run].
    erewrite bind_prefix
      by (cbn [servo_step]; unfold bind, gets, emit, modify;
          rewrite Hp; reflexivity).
    reflexivity.
Qed.

(** An iteration that returns is a run of steps from the poll back to the
    poll, with the same globals and the same trace. *)
Lemma servo_run_refines_cycle g g' tr :
  servoMotorTask_cycle EEPROM fuel r g = Ok (tt, g', tr) ->
  exists n, servo_run EEPROM fuel r (S n) AtPoll g = Ok (AtPoll, g', tr).
Proof.
  unfold servoMotorTask_cycle. intros H.
  destruct (negb (PICC_IsNewCardPresent r) || negb (PICC_ReadCardSerial r))
    eqn:Hcard.
  - exists 0%nat. cbn [servo_run servo_step]. rewrite Hcard.
    cbn in *. inversion H; subst. reflexivity.
  - unfold bind at 1 in H.
    destruct (isRecognized EEPROM fuel (uidByte r) g)
      as [[[b g1] t1]|e] eqn:Hrec; [|discriminate].
    destruct (isRecognized_frame _ _ _ _ _ _ _ Hrec) as [-> _].
    destruct b; cbn [when] in H.
    + unfold bind at 1 2, gets at 1 in H.
      destruct (beenFed g) eqn:Hfed; cbn [negb when] in H.
      * exists 1%nat. cbn [servo_run servo_step]. rewrite Hcard.
        unfold bind, gets, emit in *. rewrite Hrec, Hfed. cbn in *.
        inversion H; subst. rewrite app_nil_r. reflexivity.
      * unfold bind, emit, modify in H.
        destruct (sweep_up fuel (set_pos 0 g)) as [[[[] g2] t2]|e] eqn:Hup;
          [|discriminate].
        destruct (sweep_down fuel (set_pos 45 g2))
          as [[[[] g3] t3]|e] eqn:Hdown; [|discriminate].
        destruct (sweep_up_steps _ _ _ _ Hup) as [n1 H1].
        destruct (sweep_down_steps _ _ _ _ Hdown) as [n2 H2].
        exists (n1 + (n2 + 1))%nat. cbn [servo_run].
        erewrite bind_prefix
          by (cbn [servo_step]; rewrite Hcard; unfold bind, gets, emit, modify;
              rewrite Hrec, Hfed; reflexivity).
        rewrite H1, H2. cbn. inversion H; subst.
        do 2 f_equal. rewrite app_nil_r, <- !app_assoc. reflexivity.
    + exists 1%nat. cbn [servo_run servo_step]. rewrite Hcard.
      unfold bind, gets, emit in *. rewrite Hrec. cbn in *.
      inversion H; subst. rewrite app_nil_r. reflexivity.
Qed.

End Refinement.

(** * Further properties of the code *)

(** ** [isRecognized] *)

Lemma uid_bytes_at uid uid' :
  uid_bytes uid = uid_bytes uid' ->
  forall j, 0 <= j < UID_SIZE -> uid_at uid j = uid_at uid' j.
Proof.
  unfold uid_bytes, uid_offsets. intros H j Hj.
  assert (Hin : In j (count_up 0 (Z.to_nat UID_SIZE))).
  { apply in_count_up. change (Z.of_nat (Z.to_nat UID_SIZE)) with UID_SIZE.
    lia. }
  revert H Hin. generalize (count_up 0 (Z.to_nat UID_SIZE)).
  induction l as [|k l IH]; cbn; intros H Hin; [contradiction|].
  inversion H. destruct Hin as [->|Hin]; auto.
Qed.

Lemma bytes_eqb_refl l : bytes_eqb l l = true.
Proof.
  unfold bytes_eqb. rewrite Nat.eqb_refl. cbn [andb].
  induction l as [|x l IH]; cbn; [reflexivity|].
  rewrite Z.eqb_refl, IH. reflexivity.
Qed.

(** X1: given fuel for its loops, [isRecognized] returns, leaves the globals
    alone, and its answer is true exactly when one of the [MAX_USERS] slots
    holds the [UID_SIZE] bytes of the identifier, byte for byte. *)
Theorem isRecognized_correct EEPROM fuel uid g :
  (15 <= fuel)%nat ->
  exists b tr,
    isRecognized EEPROM fuel uid g = Ok (b, g, tr)
    /\ (b = true <->
        exists i, 0 <= i < MAX_USERS
                  /\ forall j, 0 <= j < UID_SIZE ->
                               EEPROM (i * UID_SIZE + j) = uid_at uid j).
Proof.
  intros Hf. destruct (isRecognized_ok EEPROM fuel uid g Hf) as [tr [Hrun _]].
  exists (some_slot_matches EEPROM uid), tr. split; [exact Hrun|].
  apply some_slot_matches_iff.
Qed.

Lemma isRecognized_correct_witness :
  exists b tr,
    isRecognized scenario_eeprom 15 [170; 187; 204; 221] initial_globals
      = Ok (b, initial_globals, tr)
    /\ (b = true <->
        exists i, 0 <= i < MAX_USERS
                  /\ forall j, 0 <= j < UID_SIZE ->
                               scenario_eeprom (i * UID_SIZE + j)
                               = uid_at [170; 187; 204; 221] j).
Proof.
  apply (isRecognized_correct scenario_eeprom 15 [170; 187; 204; 221]
           initial_globals).
  lia.
Defined.

(** X2: the scan is linear and the first match wins.  Whatever the fuel, a
    lookup that answers true stopped at a slot that holds the identifier,
    no slot before it holds the identifier, and the last reads it made are
    the [UID_SIZE] cells of that slot. *)
Theorem isRecognized_first_match_wins EEPROM fuel uid g g1 t :
  isRecognized EEPROM fuel uid g = Ok (true, g1, t) ->
  exists i t0,
    0 <= i < MAX_USERS
    /\ bytes_eqb (slot EEPROM i) (uid_bytes uid) = true
    /\ (forall k, 0 <= k < i ->
                  bytes_eqb (slot EEPROM k) (uid_bytes uid) = false)
    /\ t = t0 ++ slot_reads i.
Proof. apply isRecognized_first_match. Qed.

(** Slots 0 and 1 both hold 01 02 03 04: the lookup stops at slot 0. *)
Lemma isRecognized_first_match_wins_witness :
  exists i t0,
    0 <= i < MAX_USERS
    /\ bytes_eqb (slot (fun a => nth (Z.to_nat a) [1; 2; 3; 4; 1; 2; 3; 4] 255)
                    i) (uid_bytes [1; 2; 3; 4]) = true
    /\ (forall k, 0 <= k < i ->
          bytes_eqb (slot (fun a => nth (Z.to_nat a) [1; 2; 3; 4; 1; 2; 3; 4]
                                     255) k) (uid_bytes [1; 2; 3; 4]) = false)
    /\ [EepromRead 0; EepromRead 1; EepromRead 2; EepromRead 3]
       = t0 ++ slot_reads i.
Proof.
  apply (isRecognized_first_match_wins
           (fun a => nth (Z.to_nat a) [1; 2; 3; 4; 1; 2; 3; 4] 255)
           15 [1; 2; 3; 4] initial_globals initial_globals).
  reflexivity.
Defined.

Lemma reads_within_weaken lo hi lo' hi' t :
  lo' <= lo -> hi <= hi' ->
  reads_within lo hi t = true -> reads_within lo' hi' t = true.
Proof.
  intros Hlo Hhi. unfold reads_within.
  induction t as [|e t IH]; cbn; [reflexivity|].
  intros H. apply andb_prop in H. destruct H as [He H].
  rewrite (IH H), andb_true_r. destruct e; try discriminate.
  apply andb_prop in He. destruct He as [H1 H2].
  apply Z.leb_le in H1. apply Z.ltb_lt in H2.
  apply andb_true_intro. split; [apply Z.leb_le|apply Z.ltb_lt]; lia.
Qed.

Lemma reads_within_app lo hi t1 t2 :
  reads_within lo hi (t1 ++ t2)
  = reads_within lo hi t1 && reads_within lo hi t2.
Proof. apply forallb_app. Qed.

Section LookupReads.

Variable EEPROM : Z -> Z.

Lemma uid_match_loop_reads_within fuel :
  forall uid i j g b g1 t,
    0 <= j <= UID_SIZE ->
    uid_match_loop EEPROM fuel uid i j g = Ok (b, g1, t) ->
    reads_within (i * UID_SIZE + j) (i * UID_SIZE + UID_SIZE) t = true
    /\ Z.of_nat (List.length t) <= UID_SIZE - j.
Proof.
  induction fuel as [|fuel IH]; intros uid i j g b g1 t Hj H;
    cbn [uid_match_loop] in H; [discriminate|].
  destruct (j <? UID_SIZE) eqn:Hlt.
  - apply Z.ltb_lt in Hlt.
    assert (Hhere : (i * UID_SIZE + j <=? i * UID_SIZE + j)
                    && (i * UID_SIZE + j <? i * UID_SIZE + UID_SIZE) = true).
    { apply andb_true_intro. split; [apply Z.leb_le|apply Z.ltb_lt]; lia. }
    unfold EEPROM_read, bind at 1 in H. cbn in H.
    destruct (EEPROM (i * UID_SIZE + j) =? uid_at uid j); cbn in H.
    + destruct (uid_match_loop EEPROM fuel uid i (j + 1) g)
        as [[[b' g2] t2]|e] eqn:Hr; [|discriminate].
      apply IH in Hr; [|lia]. destruct Hr as [Hin Hlen].
      inversion H; subst. split.
      * cbn [reads_within forallb]. rewrite Hhere. cbn [andb].
        apply (reads_within_weaken (i * UID_SIZE + (j + 1))
                 (i * UID_SIZE + UID_SIZE)); [lia|lia|exact Hin].
      * cbn [List.length]. lia.
    + inversion H; subst. split.
      * cbn [reads_within forallb]. rewrite Hhere. reflexivity.
      * cbn [List.length]. lia.
  - apply Z.ltb_ge in Hlt. inversion H; subst. split; [reflexivity|].
    cbn [List.length]. lia.
Qed.

Lemma isRecognized_loop_reads_within fuel :
  forall uid i g b g1 t,
    0 <= i <= MAX_USERS ->
    isRecognized_loop EEPROM fuel uid i g = Ok (b, g1, t) ->
    reads_within (i * UID_SIZE) (MAX_USERS * UID_SIZE) t = true
    /\ Z.of_nat (List.length t) <= (MAX_USERS - i) * UID_SIZE.
Proof.
  induction fuel as [|fuel IH]; intros uid i g b g1 t Hi H;
    cbn [isRecognized_loop] in H; [discriminate|].
  destruct (i <? MAX_USERS) eqn:Hlt.
  - apply Z.ltb_lt in Hlt. unfold bind in H.
    destruct (uid_match_loop EEPROM (S fuel) uid i 0 g)
      as [[[m g2] t2]|e] eqn:Hm; [|discriminate].
    pose proof (uid_match_loop_frame _ _ _ _ _ _ _ _ _ Hm) as [-> _].
    apply uid_match_loop_reads_within in Hm; [|unfold UID_SIZE; lia].
    destruct Hm as [Hin2 Hlen2].
    assert (Hin2' : reads_within (i * UID_SIZE) (MAX_USERS * UID_SIZE) t2
                    = true).
    { apply (reads_within_weaken (i * UID_SIZE + 0)
               (i * UID_SIZE + UID_SIZE)); [lia| |exact Hin2].
      unfold UID_SIZE in *. lia. }
    destruct m.
    + cbn in H. inversion H; subst. rewrite app_nil_r.
      split; [exact Hin2'|]. unfold UID_SIZE in *. lia.
    + destruct (isRecognized_loop EEPROM fuel uid (i + 1) g)
        as [[[b' g3] t3]|e] eqn:Hr; [|discriminate].
      apply IH in Hr; [|lia]. destruct Hr as [Hin3 Hlen3].
      inversion H; subst. split.
      * rewrite reads_within_app, Hin2'. cbn [andb].
        apply (reads_within_weaken ((i + 1) * UID_SIZE)
                 (MAX_USERS * UID_SIZE)); [|lia|exact Hin3].
        unfold UID_SIZE. lia.
      * rewrite length_app. unfold UID_SIZE in *. lia.
  - inversion H; subst. split; [reflexivity|].
    apply Z.ltb_ge in Hlt. cbn [List.length]. unfold UID_SIZE. lia.
Qed.

End LookupReads.

(** X3: whatever the EEPROM and the identifier hold, a lookup only reads
    EEPROM cells, all of them below [MAX_USERS * UID_SIZE] -- inside the
    [EEPROM_SIZE] bytes [setup] asks for -- and makes at most
    [MAX_USERS * UID_SIZE] reads. *)
Theorem isRecognized_reads_bounded EEPROM fuel uid g b g1 t :
  isRecognized EEPROM fuel uid g = Ok (b, g1, t) ->
  reads_within 0 (MAX_USERS * UID_SIZE) t = true
  /\ Z.of_nat (List.length t) <= MAX_USERS * UID_SIZE
  /\ MAX_USERS * UID_SIZE <= EEPROM_SIZE.
Proof.
  intros H. apply isRecognized_loop_reads_within in H;
    [|unfold MAX_USERS; lia].
  destruct H as [Hin Hlen]. split; [exact Hin|]. split.
  - unfold MAX_USERS, UID_SIZE in *. lia.
  - unfold MAX_USERS, UID_SIZE, EEPROM_SIZE. lia.
Qed.

Lemma isRecognized_reads_bounded_witness :
  reads_within 0 (MAX_USERS * UID_SIZE)
    (map EepromRead [0; 4; 8; 12; 16; 20; 24; 28; 32; 36]) = true
  /\ Z.of_nat
       (List.length (map EepromRead [0; 4; 8; 12; 16; 20; 24; 28; 32; 36]))
     <= MAX_USERS * UID_SIZE
  /\ MAX_USERS * UID_SIZE <= EEPROM_SIZE.
Proof.
  apply (isRecognized_reads_bounded scenario_eeprom 15 [1; 2; 3; 4]
           initial_globals false initial_globals).
  reflexivity.
Defined.

Section LookupExt.

Variables EEPROM EEPROM' : Z -> Z.
Variables uid uid' : list Z.

Hypothesis same_cells :
  forall a, 0 <= a < MAX_USERS * UID_SIZE -> EEPROM a = EEPROM' a.
Hypothesis same_bytes : uid_bytes uid = uid_bytes uid'.

Lemma uid_match_loop_ext fuel :
  forall i j g,
    0 <= i < MAX_USERS -> 0 <= j ->
    uid_match_loop EEPROM fuel uid i j g
    = uid_match_loop EEPROM' fuel uid' i j g.
Proof.
  induction fuel as [|fuel IH]; intros i j g Hi Hj; cbn [uid_match_loop];
    [reflexivity|].
  destruct (j <? UID_SIZE) eqn:Hlt; [|reflexivity].
  apply Z.ltb_lt in Hlt.
  unfold EEPROM_read, bind at 1. unfold bind at 2. cbn.
  rewrite (same_cells (i * UID_SIZE + j))
    by (unfold MAX_USERS, UID_SIZE in *; lia).
  rewrite (uid_bytes_at uid uid' same_bytes j) by lia.
  destruct (EEPROM' (i * UID_SIZE + j) =? uid_at uid' j); cbn;
    [|reflexivity].
  rewrite (IH i (j + 1) g) by lia. reflexivity.
Qed.

Lemma isRecognized_loop_ext fuel :
  forall i g,
    0 <= i ->
    isRecognized_loop EEPROM fuel uid i g
    = isRecognized_loop EEPROM' fuel uid' i g.
Proof.
  induction fuel as [|fuel IH]; intros i g Hi; cbn [isRecognized_loop];
    [reflexivity|].
  destruct (i <? MAX_USERS) eqn:Hlt; [|reflexivity].
  apply Z.ltb_lt in Hlt. unfold bind.
  rewrite (uid_match_loop_ext (S fuel) i 0 g) by lia.
  destruct (uid_match_loop EEPROM' (S fuel) uid' i 0 g)
    as [[[m g2] t2]|e]; [|reflexivity].
  destruct m; [reflexivity|].
  rewrite (IH (i + 1) g2) by lia. reflexivity.
Qed.

End LookupExt.

(** X4: a lookup depends on nothing but the first [UID_SIZE] bytes of the
    reader's buffer and the first [MAX_USERS * UID_SIZE] cells of the
    EEPROM: identifiers that agree on their first [UID_SIZE] bytes -- two
    seven-byte identifiers with the same first four bytes, say -- get the
    same answer, with the same reads. *)
Theorem isRecognized_depends_only EEPROM EEPROM' uid uid' fuel g :
  (forall a, 0 <= a < MAX_USERS * UID_SIZE -> EEPROM a = EEPROM' a) ->
  uid_bytes uid = uid_bytes uid' ->
  isRecognized EEPROM fuel uid g = isRecognized EEPROM' fuel uid' g.
Proof.
  intros HE Hu. unfold isRecognized.
  apply isRecognized_loop_ext; [exact HE|exact Hu|lia].
Qed.

(** A seven-byte identifier that starts with the four whitelisted bytes, and
    an EEPROM that differs past the whitelist. *)
Lemma isRecognized_depends_only_witness :
  isRecognized scenario_eeprom 15 [170; 187; 204; 221] initial_globals
  = isRecognized (fun a => if a <? 40 then scenario_eeprom a else 0) 15
      [170; 187; 204; 221; 1; 2; 3] initial_globals.
Proof.
  apply (isRecognized_depends_only scenario_eeprom
           (fun a => if a <? 40 then scenario_eeprom a else 0)
           [170; 187; 204; 221] [170; 187; 204; 221; 1; 2; 3]
           15 initial_globals).
  - intros a Ha. unfold MAX_USERS, UID_SIZE in Ha.
    replace (a <? 40) with true by (symmetry; apply Z.ltb_lt; lia).
    reflexivity.
  - reflexivity.
Defined.

Lemma uid_bytes_slot EEPROM i : uid_bytes (slot EEPROM i) = slot EEPROM i.
Proof. reflexivity. Qed.

(** X5: whatever a slot holds is recognized: for every slot of the
    whitelist, populated or not, the lookup of the slot's own bytes answers
    true. *)
Theorem isRecognized_every_slot EEPROM fuel i g :
  (15 <= fuel)%nat ->
  0 <= i < MAX_USERS ->
  exists tr, isRecognized EEPROM fuel (slot EEPROM i) g = Ok (true, g, tr).
Proof.
  intros Hf Hi.
  destruct (isRecognized_ok EEPROM fuel (slot EEPROM i) g Hf)
    as [tr [Hrun _]].
  exists tr. rewrite Hrun. do 3 f_equal.
  unfold some_slot_matches. apply existsb_exists. exists i. split.
  - apply in_count_up.
    change (Z.of_nat (Z.to_nat MAX_USERS)) with MAX_USERS. lia.
  - rewrite uid_bytes_slot. apply bytes_eqb_refl.
Qed.

Lemma isRecognized_every_slot_witness :
  exists tr,
    isRecognized scenario_eeprom 15 (slot scenario_eeprom 0) initial_globals
      = Ok (true, initial_globals, tr).
Proof.
  apply (isRecognized_every_slot scenario_eeprom 15 0 initial_globals).
  - lia.
  - unfold MAX_USERS. lia.
Defined.

(** ** [loadUIDsFromEEPROM] *)

Section LoadFacts.

Variable EEPROM : Z -> Z.

(** The loop over the bytes of slot [i] fills [uid] with the slot, finds out
    whether it is empty, and reads its four cells. *)
Lemma load_slot_loop_ok fuel i g :
  (5 <= fuel)%nat ->
  load_slot_loop EEPROM fuel i 0 [0; 0; 0; 0] true g
  = Ok ((slot EEPROM i, slot_empty (slot EEPROM i)), g, slot_reads i).
Proof.
  intros Hf. replace fuel with (5 + (fuel - 5))%nat by lia.
  generalize (fuel - 5)%nat. intros f.
  assert (Hrun : load_slot_loop EEPROM (5 + f) i 0 [0; 0; 0; 0] true g
    = Ok (([EEPROM (i * UID_SIZE + 0); EEPROM (i * UID_SIZE + (0 + 1));
            EEPROM (i * UID_SIZE + (0 + 1 + 1));
            EEPROM (i * UID_SIZE + (0 + 1 + 1 + 1))],
           if negb (EEPROM (i * UID_SIZE + (0 + 1 + 1 + 1)) =? 255) then false
           else if negb (EEPROM (i * UID_SIZE + (0 + 1 + 1)) =? 255) then false
           else if negb (EEPROM (i * UID_SIZE + (0 + 1)) =? 255) then false
           else if negb (EEPROM (i * UID_SIZE + 0) =? 255) then false
           else true), g,
          [EepromRead (i * UID_SIZE + 0); EepromRead (i * UID_SIZE + (0 + 1));
           EepromRead (i * UID_SIZE + (0 + 1 + 1));
           EepromRead (i * UID_SIZE + (0 + 1 + 1 + 1))]))
    by reflexivity.
  rewrite Hrun. unfold slot, slot_empty, slot_reads, uid_offsets, SENTINEL.
  change (count_up 0 (Z.to_nat UID_SIZE))
    with [0; 0 + 1; 0 + 1 + 1; 0 + 1 + 1 + 1].
  cbn [map forallb].
  destruct (EEPROM (i * UID_SIZE + 0) =? 255);
    destruct (EEPROM (i * UID_SIZE + (0 + 1)) =? 255);
    destruct (EEPROM (i * UID_SIZE + (0 + 1 + 1)) =? 255);
    destruct (EEPROM (i * UID_SIZE + (0 + 1 + 1 + 1)) =? 255); reflexivity.
Qed.

(** The loop that prints a slot. *)
Lemma print_uid_loop_ok fuel i g :
  (5 <= fuel)%nat ->
  print_uid_loop fuel (slot EEPROM i) 0 g
  = Ok (tt, g,
        flat_map (fun b => [SerialPrint (if b <? 16 then " 0" else " ");
                            SerialPrintHex b]) (slot EEPROM i)).
Proof.
  intros Hf. replace fuel with (5 + (fuel - 5))%nat by lia.
  reflexivity.
Qed.

Lemma loadUIDs_loop_from g n :
  forall fuel i,
    i = MAX_USERS - Z.of_nat n ->
    (n + 5 <= fuel)%nat ->
    loadUIDs_loop EEPROM fuel i g
    = Ok (tt, g, flat_map (load_slot_trace EEPROM) (count_up i n)).
Proof.
  induction n as [|n IH]; intros fuel i Hi Hf;
    (destruct fuel as [|fuel]; [lia|]); cbn [loadUIDs_loop].
  - replace (i <? MAX_USERS) with false by (symmetry; apply Z.ltb_ge; lia).
    reflexivity.
  - replace (i <? MAX_USERS) with true by (symmetry; apply Z.ltb_lt; lia).
    rewrite count_up_S. cbn [flat_map].
    rewrite (bind_ok _ _ _ _ _ _ (load_slot_loop_ok (S fuel) i g ltac:(lia))).
    cbn [fst snd]. unfold load_slot_trace at 1.
    rewrite slot_populated_negb.
    destruct (slot_empty (slot EEPROM i)); cbn [negb when].
    + unfold bind at 1. cbn [ret].
      rewrite (IH fuel (i + 1)) by lia.
      rewrite !app_nil_r. reflexivity.
    + unfold bind, emit.
      rewrite (print_uid_loop_ok (S fuel) i g) by lia.
      rewrite (IH fuel (i + 1)) by lia.
      unfold user_line. cbn [fst snd app].
      rewrite <- !app_assoc. reflexivity.
Qed.

Lemma loadUIDsFromEEPROM_ok fuel g :
  (15 <= fuel)%nat ->
  loadUIDsFromEEPROM EEPROM fuel g
  = Ok (tt, g,
        SerialPrintln "Loaded stored RFID users:"
        :: flat_map (load_slot_trace EEPROM) slot_indices).
Proof.
  intros Hf. unfold loadUIDsFromEEPROM, bind, emit.
  rewrite (loadUIDs_loop_from g 10 fuel 0) by (cbn; lia).
  reflexivity.
Qed.

Lemma eeprom_reads_app t1 t2 :
  eeprom_reads (t1 ++ t2) = eeprom_reads t1 ++ eeprom_reads t2.
Proof. apply flat_map_app. Qed.

Lemma serial_output_app t1 t2 :
  serial_output (t1 ++ t2) = serial_output t1 ++ serial_output t2.
Proof. apply filter_app. Qed.

Lemma load_slot_trace_reads k :
  eeprom_reads (load_slot_trace EEPROM k)
  = map (fun j => k * UID_SIZE + j) uid_offsets.
Proof.
  unfold load_slot_trace. rewrite eeprom_reads_app.
  destruct (slot_populated (slot EEPROM k)); rewrite app_nil_r; reflexivity.
Qed.

Lemma load_slot_trace_serial k :
  serial_output (load_slot_trace EEPROM k)
  = if slot_populated (slot EEPROM k) then user_line (k, slot EEPROM k)
    else [].
Proof.
  unfold load_slot_trace. rewrite serial_output_app.
  destruct (slot_populated (slot EEPROM k)); [|reflexivity].
  unfold user_line, slot. cbn.
  reflexivity.
Qed.

Lemma load_reads_all l :
  eeprom_reads (flat_map (load_slot_trace EEPROM) l)
  = flat_map (fun k => map (fun j => k * UID_SIZE + j) uid_offsets) l.
Proof.
  induction l as [|k l IH]; cbn [flat_map]; [reflexivity|].
  rewrite eeprom_reads_app, load_slot_trace_reads, IH. reflexivity.
Qed.

Lemma load_serial_all l :
  serial_output (flat_map (load_slot_trace EEPROM) l)
  = flat_map user_line
      (filter (fun u => slot_populated (snd u))
         (map (fun i => (i, slot EEPROM i)) l)).
Proof.
  induction l as [|k l IH]; cbn [flat_map map filter snd]; [reflexivity|].
  rewrite serial_output_app, load_slot_trace_serial, IH.
  destruct (slot_populated (slot EEPROM k)); reflexivity.
Qed.

End LoadFacts.

(** X6: given fuel for its loops, [loadUIDsFromEEPROM] returns and leaves
    the globals alone; unlike the lookup it never stops early: it reads each
    of the [MAX_USERS * UID_SIZE] whitelist cells once, in address order, and
    no other cell. *)
Theorem loadUIDsFromEEPROM_reads_every_cell EEPROM fuel g :
  (15 <= fuel)%nat ->
  exists tr,
    loadUIDsFromEEPROM EEPROM fuel g = Ok (tt, g, tr)
    /\ eeprom_reads tr = count_up 0 (Z.to_nat (MAX_USERS * UID_SIZE)).
Proof.
  intros Hf. eexists. split; [apply loadUIDsFromEEPROM_ok, Hf|].
  change (eeprom_reads (flat_map (load_slot_trace EEPROM) slot_indices)
          = count_up 0 (Z.to_nat (MAX_USERS * UID_SIZE))).
  rewrite load_reads_all. reflexivity.
Qed.

Lemma loadUIDsFromEEPROM_reads_every_cell_witness :
  exists tr,
    loadUIDsFromEEPROM scenario_eeprom 15 initial_globals
      = Ok (tt, initial_globals, tr)
    /\ eeprom_reads tr = count_up 0 (Z.to_nat (MAX_USERS * UID_SIZE)).
Proof.
  apply (loadUIDsFromEEPROM_reads_every_cell scenario_eeprom 15
           initial_globals).
  lia.
Defined.

(** X7: what [loadUIDsFromEEPROM] writes to the serial line is its heading
    followed by one line for each populated slot, in slot order -- "User ",
    the slot number counted from 1, ": ", and each byte in hexadecimal after
    " 0" when the byte is below 0x10 and " " otherwise; a slot whose bytes
    are all 0xFF gets no line. *)
Theorem loadUIDsFromEEPROM_lists_populated EEPROM fuel g :
  (15 <= fuel)%nat ->
  exists tr,
    loadUIDsFromEEPROM EEPROM fuel g = Ok (tt, g, tr)
    /\ serial_output tr
       = SerialPrintln "Loaded stored RFID users:"
         :: flat_map user_line (listed_users EEPROM).
Proof.
  intros Hf. eexists. split; [apply loadUIDsFromEEPROM_ok, Hf|].
  change (SerialPrintln "Loaded stored RFID users:"
          :: serial_output (flat_map (load_slot_trace EEPROM) slot_indices)
          = SerialPrintln "Loaded stored RFID users:"
            :: flat_map user_line (listed_users EEPROM)).
  rewrite load_serial_all. reflexivity.
Qed.

(** An EEPROM with slots 0 and 2 populated: 0A BB CC DD and 01 FF FF FF. *)
Lemma loadUIDsFromEEPROM_lists_populated_witness :
  exists tr,
    loadUIDsFromEEPROM
      (fun a => nth (Z.to_nat a)
                  [10; 187; 204; 221; 255; 255; 255; 255; 1; 255; 255; 255]
                  255)
      15 initial_globals = Ok (tt, initial_globals, tr)
    /\ serial_output tr
       = [SerialPrintln "Loaded stored RFID users:";
          SerialPrint "User "; SerialPrintInt 1; SerialPrint ": ";
          SerialPrint " 0"; SerialPrintHex 10;
          SerialPrint " "; SerialPrintHex 187;
          SerialPrint " "; SerialPrintHex 204;
          SerialPrint " "; SerialPrintHex 221; SerialNewline;
          SerialPrint "User "; SerialPrintInt 3; SerialPrint ": ";
          SerialPrint " 0"; SerialPrintHex 1;
          SerialPrint " "; SerialPrintHex 255;
          SerialPrint " "; SerialPrintHex 255;
          SerialPrint " "; SerialPrintHex 255; SerialNewline].
Proof.
  apply (loadUIDsFromEEPROM_lists_populated
           (fun a => nth (Z.to_nat a)
                       [10; 187; 204; 221; 255; 255; 255; 255;
                        1; 255; 255; 255] 255)
           15 initial_globals).
  lia.
Defined.

Lemma populated_slot_matches_listed EEPROM uid :
  populated_slot_matches EEPROM uid = true
  <-> In (uid_bytes uid) (map snd (listed_users EEPROM)).
Proof.
  unfold populated_slot_matches, listed_users.
  rewrite existsb_exists, in_map_iff. split.
  - intros [i [Hi H]]. apply andb_prop in H. destruct H as [Hp Hm].
    apply bytes_eqb_eq in Hm.
    exists (i, slot EEPROM i). split; [exact Hm|].
    apply filter_In. split; [|exact Hp].
    apply in_map_iff. exists i. split; [reflexivity|exact Hi].
  - intros [[i s] [Hs Hin]]. cbn [snd] in Hs. subst s.
    apply filter_In in Hin. destruct Hin as [Hin Hp].
    apply in_map_iff in Hin. destruct Hin as [k [Hk Hin]].
    pose proof (f_equal snd Hk) as Hks. cbn [snd] in Hks.
    exists k. split; [exact Hin|].
    cbn [snd] in Hp. rewrite Hks, Hp. apply bytes_eqb_refl.
Qed.

(** X8: the listing and the lookup agree on every identifier but one: for an
    identifier whose [UID_SIZE] bytes are not all 0xFF, [isRecognized]
    answers true exactly when [loadUIDsFromEEPROM] lists a user with those
    bytes. *)
Theorem isRecognized_iff_listed EEPROM fuel uid g :
  (15 <= fuel)%nat ->
  slot_empty (uid_bytes uid) = false ->
  exists b tr,
    isRecognized EEPROM fuel uid g = Ok (b, g, tr)
    /\ (b = true <-> In (uid_bytes uid) (map snd (listed_users EEPROM))).
Proof.
  intros Hf Hne.
  destruct (isRecognized_ok EEPROM fuel uid g Hf) as [tr [Hrun _]].
  exists (some_slot_matches EEPROM uid), tr. split; [exact Hrun|].
  rewrite <- (populated_slot_matches_nonsentinel EEPROM uid Hne).
  apply populated_slot_matches_listed.
Qed.

Lemma isRecognized_iff_listed_witness :
  exists b tr,
    isRecognized scenario_eeprom 15 [170; 187; 204; 221] initial_globals
      = Ok (b, initial_globals, tr)
    /\ (b = true <->
        In (uid_bytes [170; 187; 204; 221])
          (map snd (listed_users scenario_eeprom))).
Proof.
  apply (isRecognized_iff_listed scenario_eeprom 15 [170; 187; 204; 221]
           initial_globals).
  - lia.
  - reflexivity.
Defined.

(** ** [resetFeederTask] *)

Lemma rem_zero_abs a n : n <> 0 -> (Z.rem a n = 0 <-> a mod Z.abs n = 0).
Proof.
  intros Hn. rewrite (Z.rem_mod_eq_0 a n Hn).
  rewrite !Z.mod_divide by lia.
  symmetry. apply Z.divide_abs_l.
Qed.

(** What the remainder test amounts to for any divisor but zero. *)
Lemma resetFeederTask_cycle_abs now g :
  interval g <> 0 ->
  valid_time now ->
  exists g' tr,
    resetFeederTask_cycle now g = Ok (tt, g', tr)
    /\ (minute now mod Z.abs (interval g) = 0 /\ second now = 0 ->
        beenFed g' = false)
    /\ (~ (minute now mod Z.abs (interval g) = 0 /\ second now = 0) ->
        beenFed g' = beenFed g)
    /\ interval g' = interval g.
Proof.
  intros Hn [Hm Hs].
  rewrite (resetFeederTask_cycle_ok now g Hn).
  rewrite !to_byte_small by assumption.
  pose proof (rem_zero_abs (minute now) (interval g) Hn) as Hrem.
  destruct (Z.rem (minute now) (interval g) =? 0) eqn:E1;
    destruct (second now =? 0) eqn:E2; cbn [andb];
    do 2 eexists; (split; [reflexivity|]); cbn [beenFed set_beenFed set_nowDT
      interval];
    rewrite ?Z.eqb_eq, ?Z.eqb_neq in *; repeat split; try tauto;
    intros [H1 H2]; tauto.
Qed.

(** X9: for every interval other than zero, negative ones included, an
    iteration of [resetFeederTask] returns, clears [beenFed] when the minute
    is a multiple of the absolute value of the interval and the second is 0,
    and leaves [beenFed] as it is otherwise; it never changes the
    interval. *)
Theorem resetFeederTask_cycle_nonzero_interval now g :
  interval g <> 0 ->
  valid_time now ->
  exists g' tr,
    resetFeederTask_cycle now g = Ok (tt, g', tr)
    /\ (minute now mod Z.abs (interval g) = 0 /\ second now = 0 ->
        beenFed g' = false)
    /\ (~ (minute now mod Z.abs (interval g) = 0 /\ second now = 0) ->
        beenFed g' = beenFed g)
    /\ interval g' = interval g.
Proof. apply resetFeederTask_cycle_abs. Qed.

(** After three presses too many the interval is -2: minute 10 is a
    boundary. *)
Lemma resetFeederTask_cycle_nonzero_interval_witness :
  exists g' tr,
    resetFeederTask_cycle (mkDateTime 10 0)
      (set_interval (-2) (set_beenFed true initial_globals))
      = Ok (tt, g', tr)
    /\ beenFed g' = false.
Proof.
  destruct (resetFeederTask_cycle_nonzero_interval (mkDateTime 10 0)
              (set_interval (-2) (set_beenFed true initial_globals)))
    as [g' [tr [Hrun [Hclear _]]]].
  - cbn. lia.
  - unfold valid_time, is_byte. cbn. lia.
  - exists g', tr. split; [exact Hrun|].
    apply Hclear. cbn. split; reflexivity.
Defined.

(** X10: with an interval of 60 minutes or more (or -60 or less) the only
    boundary the clock can show is the top of the hour: for a minute in
    0..59, [beenFed] is cleared when minute and second are both 0 and is left
    as it is at any other time. *)
Theorem resetFeederTask_cycle_long_interval now g :
  60 <= Z.abs (interval g) ->
  0 <= minute now <= 59 ->
  0 <= second now <= 59 ->
  exists g' tr,
    resetFeederTask_cycle now g = Ok (tt, g', tr)
    /\ (minute now = 0 /\ second now = 0 -> beenFed g' = false)
    /\ (~ (minute now = 0 /\ second now = 0) -> beenFed g' = beenFed g).
Proof.
  intros Hn Hm Hs.
  destruct (resetFeederTask_cycle_abs now g)
    as [g' [tr [Hrun [Hclear [Hkeep _]]]]].
  - lia.
  - unfold valid_time, is_byte. lia.
  - exists g', tr. split; [exact Hrun|].
    rewrite (Z.mod_small (minute now) (Z.abs (interval g))) in * by lia.
    split; assumption.
Qed.

(** An interval of 90 minutes: minute 30 is no boundary. *)
Lemma resetFeederTask_cycle_long_interval_witness :
  exists g' tr,
    resetFeederTask_cycle (mkDateTime 30 0)
      (set_interval 90 (set_beenFed true initial_globals))
      = Ok (tt, g', tr)
    /\ beenFed g' = true.
Proof.
  destruct (resetFeederTask_cycle_long_interval (mkDateTime 30 0)
              (set_interval 90 (set_beenFed true initial_globals)))
    as [g' [tr [Hrun [_ Hkeep]]]].
  - cbn. lia.
  - cbn. lia.
  - cbn. lia.
  - exists g', tr. split; [exact Hrun|].
    rewrite Hkeep; [reflexivity|]. cbn. intros [H _]. discriminate.
Defined.

(** ** [adjustIntervalTask] *)

Lemma press_edge_bounds old v : 0 <= press_edge old v <= 1.
Proof.
  unfold press_edge. destruct (negb (v =? old) && (v =? LOW)); lia.
Qed.

Lemma press_edges_bounds sigs :
  forall old, 0 <= press_edges old sigs <= Z.of_nat (List.length sigs).
Proof.
  induction sigs as [|v l IH]; intros old; cbn [press_edges List.length].
  - lia.
  - pose proof (press_edge_bounds old v). pose proof (IH v). lia.
Qed.

(** X11: over any sequence of polls too short to take the interval out of
    the range of [int], the interval ends up at its old value plus the
    number of press edges of the increment button minus the number of press
    edges of the decrement button; releases and held buttons count for
    nothing, [beenFed] is not touched and nothing goes to the actuator. *)
Theorem adjust_run_counts_press_edges g sigs :
  INT_MIN <= interval g - Z.of_nat (List.length sigs) ->
  interval g + Z.of_nat (List.length sigs) <= INT_MAX ->
  exists g' tr,
    adjust_run sigs g = Ok (tt, g', tr)
    /\ interval g'
       = interval g + press_edges (oldIncrVal g) (map fst sigs)
         - press_edges (oldDecrVal g) (map snd sigs)
    /\ beenFed g' = beenFed g
    /\ no_actuation tr = true.
Proof.
  intros Hlo Hhi.
  assert (Hin : in_int (interval g)) by (unfold in_int; lia).
  destruct (adjust_run_edges sigs g Hin) as [g' [tr [Hrun [Hi [Hfed Hq]]]]].
  exists g', tr. split; [exact Hrun|]. split; [|split; assumption].
  rewrite Hi. apply wrap32_id.
  pose proof (press_edges_bounds (map fst sigs) (oldIncrVal g)) as H1.
  pose proof (press_edges_bounds (map snd sigs) (oldDecrVal g)) as H2.
  rewrite length_map in H1, H2. unfold in_int. lia.
Qed.

(** Two presses of the increment button and one of the decrement button,
    with a release and a held poll in between. *)
Lemma adjust_run_counts_press_edges_witness :
  exists g' tr,
    adjust_run [(HIGH, HIGH); (LOW, HIGH); (LOW, LOW); (HIGH, LOW);
                (LOW, HIGH)] initial_globals = Ok (tt, g', tr)
    /\ interval g' = 5 + 2 - 1
    /\ beenFed g' = false
    /\ no_actuation tr = true.
Proof.
  apply (adjust_run_counts_press_edges initial_globals
           [(HIGH, HIGH); (LOW, HIGH); (LOW, LOW); (HIGH, LOW); (LOW, HIGH)]).
  - unfold INT_MIN. cbn. lia.
  - unfold INT_MAX. cbn. lia.
Defined.

(** X12: when a poll finds both buttons newly pressed, the interval goes up
    and down again: it is reported twice, first one higher, then at its old
    value, and ends where it was. *)
Theorem adjustIntervalTask_cycle_both_pressed g :
  oldIncrVal g <> LOW ->
  oldDecrVal g <> LOW ->
  INT_MIN <= interval g < INT_MAX ->
  exists g',
    adjustIntervalTask_cycle LOW LOW g
      = Ok (tt, g',
            [SerialPrintlnInt (interval g + 1); LcdPrintInt (interval g + 1);
             LcdPrint " minutes";
             SerialPrintlnInt (interval g); LcdPrintInt (interval g);
             LcdPrint " minutes";
             TaskDelay 1000; LcdClear])
    /\ interval g' = interval g
    /\ oldIncrVal g' = LOW /\ oldDecrVal g' = LOW.
Proof.
  intros Hi Hd Hrange.
  unfold adjustIntervalTask_cycle, bind, gets, modify, emit, when.
  apply not_eq_sym, Z.eqb_neq in Hi. apply not_eq_sym, Z.eqb_neq in Hd.
  unfold LOW in *. rewrite Hi. change (0 =? 0) with true.
  cbn -[Z.eqb wrap32]. rewrite Hd. cbn -[Z.eqb wrap32].
  assert (H1 : wrap32 (interval g + 1) = interval g + 1)
    by (apply wrap32_id; unfold in_int; lia).
  assert (H2 : wrap32 (interval g + 1 - 1) = interval g)
    by (rewrite wrap32_id; unfold in_int; lia).
  rewrite H1, H2. eexists. repeat split.
Qed.

Lemma adjustIntervalTask_cycle_both_pressed_witness :
  exists g',
    adjustIntervalTask_cycle LOW LOW
      (set_oldIncrVal HIGH (set_oldDecrVal HIGH initial_globals))
      = Ok (tt, g',
            [SerialPrintlnInt 6; LcdPrintInt 6; LcdPrint " minutes";
             SerialPrintlnInt 5; LcdPrintInt 5; LcdPrint " minutes";
             TaskDelay 1000; LcdClear])
    /\ interval g' = 5
    /\ oldIncrVal g' = LOW /\ oldDecrVal g' = LOW.
Proof.
  apply (adjustIntervalTask_cycle_both_pressed
           (set_oldIncrVal HIGH (set_oldDecrVal HIGH initial_globals))).
  - discriminate.
  - discriminate.
  - unfold INT_MIN, INT_MAX. cbn. lia.
Defined.



(** ** [servoMotorTask] *)

(** The three ways an iteration can go. *)
Lemma servoMotorTask_cycle_outcome EEPROM fuel r g :
  (47 <= fuel)%nat ->
  exists reads,
    forallb is_eeprom_read reads = true
    /\ servoMotorTask_cycle EEPROM fuel r g
       = if negb (PICC_IsNewCardPresent r) || negb (PICC_ReadCardSerial r)
         then Ok (tt, g, [TaskDelay 50])
         else if some_slot_matches EEPROM (uidByte r) && negb (beenFed g)
         then Ok (tt, set_beenFed true (set_pos (-1) g),
                  reads ++ SerialPrint "Granted" :: dispense_profile
                        ++ [TaskDelay 1000; LcdClear])
         else Ok (tt, g, reads ++ [TaskDelay 1000; LcdClear]).
Proof.
  intros Hf.
  destruct (isRecognized_ok EEPROM fuel (uidByte r) g) as [reads [Hrun Hreads]];
    [lia|].
  exists reads. split; [exact Hreads|].
  unfold servoMotorTask_cycle.
  destruct (negb (PICC_IsNewCardPresent r) || negb (PICC_ReadCardSerial r));
    [reflexivity|].
  rewrite (bind_ok _ _ _ _ _ _ Hrun).
  destruct (some_slot_matches EEPROM (uidByte r)); cbn [when andb];
    [|reflexivity].
  unfold bind, gets, emit, modify.
  destruct (beenFed g); cbn [negb when]; [reflexivity|].
  rewrite (sweep_up_from 46 fuel (set_pos 0 g)) by (cbn; lia).
  rewrite (sweep_down_from 46 fuel (set_pos 45 (set_pos 46 (set_pos 0 g))))
    by (cbn; lia).
  reflexivity.
Qed.

Lemma total_delay_app t1 t2 :
  total_delay (t1 ++ t2) = total_delay t1 + total_delay t2.
Proof.
  unfold total_delay. induction t1 as [|e t1 IH]; cbn [app fold_right];
    [lia|].
  destruct e; rewrite IH; lia.
Qed.

Lemma total_delay_reads t :
  forallb is_eeprom_read t = true -> total_delay t = 0.
Proof.
  unfold total_delay. induction t as [|e t IH]; cbn; [reflexivity|].
  intros H. apply andb_prop in H. destruct H as [He H].
  destruct e; try discriminate. apply IH, H.
Qed.

(** X14: how long an iteration of [servoMotorTask] keeps the task in
    [vTaskDelay]: 50 ms when no tag could be read, 10200 ms when it
    dispenses (92 positions of 100 ms and the closing 1000 ms), 1000 ms
    otherwise. *)
Theorem servoMotorTask_cycle_duration EEPROM fuel r g :
  (47 <= fuel)%nat ->
  exists g' tr,
    servoMotorTask_cycle EEPROM fuel r g = Ok (tt, g', tr)
    /\ total_delay tr
       = if negb (PICC_IsNewCardPresent r) || negb (PICC_ReadCardSerial r)
         then 50
         else if some_slot_matches EEPROM (uidByte r) && negb (beenFed g)
         then 10200
         else 1000.
Proof.
  intros Hf.
  destruct (servoMotorTask_cycle_outcome EEPROM fuel r g Hf)
    as [reads [Hreads Hrun]].
  rewrite Hrun.
  destruct (negb (PICC_IsNewCardPresent r) || negb (PICC_ReadCardSerial r));
    [do 2 eexists; split; reflexivity|].
  destruct (some_slot_matches EEPROM (uidByte r) && negb (beenFed g));
    do 2 eexists; (split; [reflexivity|]);
    rewrite total_delay_app, (total_delay_reads _ Hreads); reflexivity.
Qed.

Lemma servoMotorTask_cycle_duration_witness :
  exists g' tr,
    servoMotorTask_cycle scenario_eeprom 47 scenario_reader initial_globals
      = Ok (tt, g', tr)
    /\ total_delay tr = 10200.
Proof.
  apply (servoMotorTask_cycle_duration scenario_eeprom 47 scenario_reader
           initial_globals).
  lia.
Defined.

(** X15: whatever an iteration of [servoMotorTask] is given, the positions
    it sends to the actuator all lie in 0..45, consecutive positions differ
    by at most one degree, and if it sends any the first and the last are
    0: the actuator is never asked to jump and is always brought back to
    rest. *)
Theorem servoMotorTask_cycle_actuator_safe EEPROM fuel r g :
  (47 <= fuel)%nat ->
  exists g' tr,
    servoMotorTask_cycle EEPROM fuel r g = Ok (tt, g', tr)
    /\ forallb (fun p => (0 <=? p) && (p <=? 45)) (actuator_commands tr) = true
    /\ unit_steps (actuator_commands tr) = true
    /\ (actuator_commands tr = []
        \/ (hd 1 (actuator_commands tr) = 0
            /\ last (actuator_commands tr) 1 = 0)).
Proof.
  intros Hf.
  destruct (servoMotorTask_cycle_outcome EEPROM fuel r g Hf)
    as [reads [Hreads Hrun]].
  rewrite Hrun.
  destruct (negb (PICC_IsNewCardPresent r) || negb (PICC_ReadCardSerial r)).
  { do 2 eexists. split; [reflexivity|]. cbn. auto. }
  destruct (some_slot_matches EEPROM (uidByte r) && negb (beenFed g));
    do 2 eexists; (split; [reflexivity|]);
    rewrite actuator_commands_app, (actuator_commands_reads _ Hreads);
    cbn [app].
  - split; [vm_compute; reflexivity|].
    split; [vm_compute; reflexivity|].
    right. split; vm_compute; reflexivity.
  - cbn. auto.
Qed.

Lemma servoMotorTask_cycle_actuator_safe_witness :
  exists g' tr,
    servoMotorTask_cycle scenario_eeprom 47 scenario_reader initial_globals
      = Ok (tt, g', tr)
    /\ forallb (fun p => (0 <=? p) && (p <=? 45)) (actuator_commands tr) = true
    /\ unit_steps (actuator_commands tr) = true
    /\ (actuator_commands tr = []
        \/ (hd 1 (actuator_commands tr) = 0
            /\ last (actuator_commands tr) 1 = 0)).
Proof.
  apply (servoMotorTask_cycle_actuator_safe scenario_eeprom 47
           scenario_reader initial_globals).
  lia.
Defined.

Lemma servoMotorTask_cycle_summary EEPROM fuel r g :
  (47 <= fuel)%nat ->
  exists g' tr,
    servoMotorTask_cycle EEPROM fuel r g = Ok (tt, g', tr)
    /\ actuator_commands tr
       = (if reader_recognized EEPROM r && negb (beenFed g)
          then profile_positions else [])
    /\ beenFed g' = beenFed g || reader_recognized EEPROM r
    /\ interval g' = interval g.
Proof.
  intros Hf.
  destruct (servoMotorTask_cycle_outcome EEPROM fuel r g Hf)
    as [reads [Hreads Hrun]].
  rewrite Hrun. unfold reader_recognized.
  destruct (PICC_IsNewCardPresent r); destruct (PICC_ReadCardSerial r);
    cbn [negb orb andb];
    try (do 2 eexists; repeat split; rewrite orb_false_r; reflexivity).
  destruct (some_slot_matches EEPROM (uidByte r));
    destruct (beenFed g) eqn:Hfed;
    cbn [negb andb orb]; do 2 eexists; (split; [reflexivity|]);
    rewrite actuator_commands_app, (actuator_commands_reads _ Hreads);
    repeat split; assumption.
Qed.

(** X16: over any number of iterations of [servoMotorTask], whatever tags
    the reader reports, the actuator gets the dispense profile once if
    [beenFed] was false and some iteration read a whitelisted tag, and
    nothing otherwise; [beenFed] ends up true exactly when it was true
    before or a whitelisted tag was read; the interval is not touched. *)
Theorem servo_cycles_dispense_once EEPROM fuel rs :
  forall g,
    (47 <= fuel)%nat ->
    exists g' tr,
      servo_cycles EEPROM fuel rs g = Ok (tt, g', tr)
      /\ actuator_commands tr
         = (if negb (beenFed g) && existsb (reader_recognized EEPROM) rs
            then profile_positions else [])
      /\ beenFed g' = beenFed g || existsb (reader_recognized EEPROM) rs
      /\ interval g' = interval g.
Proof.
  induction rs as [|r rs IH]; intros g Hf.
  - exists g, []. cbn [servo_cycles existsb].
    rewrite andb_false_r, orb_false_r. repeat split.
  - destruct (servoMotorTask_cycle_summary EEPROM fuel r g Hf)
      as [g1 [t1 [H1 [Hact1 [Hfed1 Hint1]]]]].
    destruct (IH g1 Hf) as [g' [t2 [H2 [Hact2 [Hfed2 Hint2]]]]].
    exists g', (t1 ++ t2). cbn [servo_cycles existsb].
    rewrite (bind_ok _ _ _ _ _ _ H1), H2. split; [reflexivity|].
    rewrite actuator_commands_app, Hact1, Hact2, Hfed2, Hfed1, Hint2, Hint1.
    destruct (beenFed g); destruct (reader_recognized EEPROM r);
      destruct (existsb (reader_recognized EEPROM) rs);
      cbn [negb andb orb app]; rewrite ?app_nil_r; repeat split.
Qed.

(** No tag, an unknown tag, the whitelisted tag twice, an unreadable tag. *)
Lemma servo_cycles_dispense_once_witness :
  exists g' tr,
    servo_cycles scenario_eeprom 47
      [mkReader false false []; mkReader true true [1; 2; 3; 4];
       scenario_reader; scenario_reader; mkReader true false []]
      initial_globals = Ok (tt, g', tr)
    /\ actuator_commands tr = profile_positions
    /\ beenFed g' = true
    /\ interval g' = 5.
Proof.
  apply (servo_cycles_dispense_once scenario_eeprom 47
           [mkReader false false []; mkReader true true [1; 2; 3; 4];
            scenario_reader; scenario_reader; mkReader true false []]
           initial_globals).
  lia.
Defined.

(** ** The tasks together, further *)

Lemma servo_angles_ok_app h1 h2 :
  servo_angles_ok (h1 ++ h2) = servo_angles_ok h1 && servo_angles_ok h2.
Proof. apply forallb_app. Qed.

Lemma servo_angles_ok_quiet t tr :
  no_actuation tr = true -> servo_angles_ok (tag t tr) = true.
Proof.
  unfold no_actuation, servo_angles_ok, tag.
  induction tr as [|e tr IH]; cbn; [reflexivity|].
  intros H. apply andb_prop in H. destruct H as [He H].
  rewrite (IH H), andb_true_r. destruct e; try reflexivity. discriminate.
Qed.

Lemma servo_angles_ok_step t p :
  0 <= p <= 45 -> servo_angles_ok (tag t (profile_step p)) = true.
Proof.
  intros Hp. cbn. rewrite andb_true_r.
  apply andb_true_intro. split; [apply Z.leb_le|apply Z.leb_le]; lia.
Qed.

(** X17: in every state the three tasks can reach, every position that was
    ever sent to the actuator lies in 0..45, and the global [pos] lies in
    -1..46. *)
Theorem reachable_actuator_range EEPROM s :
  reachable EEPROM s ->
  servo_angles_ok (history s) = true
  /\ -1 <= pos (globals_of s) <= 46.
Proof.
  induction 1 as [|s l s' Hr [IHh IHp] Hstep].
  - split; [reflexivity|]. cbn. lia.
  - pose proof (reachable_servo_inv EEPROM s Hr) as Hinv.
    destruct Hstep as [s now g' tr Hv H|s fuel r pc' g' tr H|s a b g' tr H];
      cbn [globals_of history]; rewrite servo_angles_ok_app, IHh;
      cbn [andb].
    + apply resetFeederTask_cycle_inv in H.
      destruct H as [_ [[_ [-> ->]]|[_ [-> ->]]]]; split; try reflexivity;
        exact IHp.
    + apply servo_step_cases in H. unfold servo_inv in Hinv.
      destruct (servo_at s); break_cases; subst; cbn [pos set_pos set_beenFed];
        try (split; [reflexivity|lia]);
        try (split; [apply servo_angles_ok_step; lia|lia]).
      * split; [|lia].
        apply servo_angles_ok_quiet, no_actuation_reads. assumption.
      * split; [|lia].
        apply servo_angles_ok_quiet. unfold no_actuation.
        rewrite forallb_app.
        match goal with
        | Hrec : isRecognized _ _ _ _ = Ok (true, _, ?reads) |- _ =>
            destruct (isRecognized_frame _ _ _ _ _ _ _ Hrec) as [_ Hreads];
            pose proof (no_actuation_reads _ Hreads) as Hq
        end.
        unfold no_actuation in Hq. rewrite Hq. reflexivity.
    + destruct (adjustIntervalTask_cycle_frame a b (globals_of s))
        as [g1 [t1 [H1 [_ [Hpos Hq]]]]].
      rewrite H1 in H. inversion H; subst. rewrite Hpos.
      split; [apply servo_angles_ok_quiet, Hq|exact IHp].
Qed.

Lemma reachable_actuator_range_witness :
  servo_angles_ok (history scenario_sweep_done) = true
  /\ -1 <= pos (globals_of scenario_sweep_done) <= 46.
Proof.
  apply (reachable_actuator_range scenario_eeprom scenario_sweep_done).
  exact scenario_sweep_done_reachable.
Defined.

Lemma count_up_app a n m :
  count_up a (n + m) = count_up a n ++ count_up (a + Z.of_nat n) m.
Proof.
  revert a. induction n as [|n IH]; intros a.
  - cbn [Nat.add]. replace (a + Z.of_nat 0) with a by lia. reflexivity.
  - cbn [Nat.add]. rewrite !count_up_S, IH. cbn [app]. do 3 f_equal. lia.
Qed.

Section Completion.

Variable EEPROM : Z -> Z.
Variable fuel : nat.
Variable r : reader.

(** A dispense that has started can always be finished: from wherever the
    sweeps stand, the task on its own reaches the end of the iteration with
    [beenFed] set, and what it has emitted then ends with the whole
    profile. *)
Lemma dispense_completes_from s :
  reachable EEPROM s ->
  servo_at s = AtSweepUp \/ servo_at s = AtSweepDown ->
  exists n g' tr h,
    servo_run EEPROM fuel r n (servo_at s) (globals_of s)
      = Ok (AtCycleEnd, g', tr)
    /\ beenFed g' = true
    /\ interval g' = interval (globals_of s)
    /\ events_of ServoMotor (history s) ++ tr = h ++ dispense_profile.
Proof.
  intros Hr Hpc. pose proof (reachable_servo_inv EEPROM s Hr) as Hinv.
  unfold servo_inv in Hinv. set (g := globals_of s) in *.
  destruct Hpc as [Hpc|Hpc]; rewrite Hpc in *; destruct Hinv as [Hp [h Hh]].
  - pose proof (sweep_up_from (Z.to_nat (46 - pos g))
                  (S (Z.to_nat (46 - pos g))) g ltac:(lia) ltac:(lia)) as Hup.
    destruct (sweep_up_steps EEPROM fuel r _ _ _ _ Hup) as [n1 H1].
    pose proof (sweep_down_from 46 47 (set_pos 45 (set_pos 46 g))
                  ltac:(cbn; lia) ltac:(lia)) as Hdown.
    destruct (sweep_down_steps EEPROM fuel r _ _ _ _ Hdown) as [n2 H2].
    exists (n1 + (n2 + 0))%nat. do 2 eexists. exists h.
    rewrite H1, H2. cbn [servo_run ret prefix_trace].
    split; [reflexivity|]. split; [reflexivity|]. split; [reflexivity|].
    rewrite Hh, app_nil_r, <- !app_assoc. f_equal.
    unfold dispense_profile. rewrite app_assoc, <- flat_map_app. do 2 f_equal.
    replace 46%nat with (Z.to_nat (pos g) + Z.to_nat (46 - pos g))%nat by lia.
    rewrite count_up_app. do 2 f_equal. lia.
  - pose proof (sweep_down_from (Z.to_nat (pos g + 1))
                  (S (Z.to_nat (pos g + 1))) g ltac:(lia) ltac:(lia))
      as Hdown.
    destruct (sweep_down_steps EEPROM fuel r _ _ _ _ Hdown) as [n2 H2].
    exists (n2 + 0)%nat. do 2 eexists. exists h.
    rewrite H2. cbn [servo_run ret prefix_trace].
    split; [reflexivity|]. split; [reflexivity|]. split; [reflexivity|].
    rewrite Hh, app_nil_r, <- !app_assoc. f_equal.
    unfold dispense_profile. f_equal. rewrite <- flat_map_app.
    rewrite <- rev_app_distr. do 2 f_equal.
    replace 46%nat
      with (Z.to_nat (pos g + 1) + Z.to_nat (45 - pos g))%nat by lia.
    rewrite count_up_app. do 2 f_equal. lia.
Qed.

End Completion.

(** X18: a dispense that has started can always be finished: from every
    reachable state in which [servoMotorTask] stands in one of its sweeps,
    the task running on its own reaches the end of its iteration with
    [beenFed] set and the interval untouched, and what it has sent by then
    ends with the whole dispense profile -- whatever the reader reports
    meanwhile. *)
Theorem dispense_completes EEPROM fuel r s :
  reachable EEPROM s ->
  servo_at s = AtSweepUp \/ servo_at s = AtSweepDown ->
  exists n g' tr h,
    servo_run EEPROM fuel r n (servo_at s) (globals_of s)
      = Ok (AtCycleEnd, g', tr)
    /\ beenFed g' = true
    /\ interval g' = interval (globals_of s)
    /\ events_of ServoMotor (history s) ++ tr = h ++ dispense_profile.
Proof. apply dispense_completes_from. Qed.

Lemma dispense_completes_witness :
  exists n g' tr h,
    servo_run scenario_eeprom 0 (mkReader false false []) n
      (servo_at scenario_sweep_done) (globals_of scenario_sweep_done)
      = Ok (AtCycleEnd, g', tr)
    /\ beenFed g' = true
    /\ interval g' = interval (globals_of scenario_sweep_done)
    /\ events_of ServoMotor (history scenario_sweep_done) ++ tr
       = h ++ dispense_profile.
Proof.
  apply (dispense_completes scenario_eeprom 0 (mkReader false false [])
           scenario_sweep_done).
  - exact scenario_sweep_done_reachable.
  - right. reflexivity.
Defined.



(** X20: a boundary re-arms the feeder: an iteration of [resetFeederTask]
    that finds the clock at an interval boundary, followed by an iteration
    of [servoMotorTask] that reads a whitelisted tag, ends in a dispense
    whatever [beenFed] was before. *)
Theorem boundary_then_tag_dispenses EEPROM fuel now r g :
  interval g <> 0 ->
  valid_time now ->
  at_boundary now (interval g) ->
  (47 <= fuel)%nat ->
  reader_recognized EEPROM r = true ->
  exists g' tr,
    (resetFeederTask_cycle now ;; servoMotorTask_cycle EEPROM fuel r) g
      = Ok (tt, g', tr)
    /\ actuator_commands tr = profile_positions
    /\ beenFed g' = true.
Proof.
  intros Hn Hv Hb Hf Hrec.
  apply (boundary_test now _ Hn Hv) in Hb.
  pose proof (resetFeederTask_cycle_ok now g Hn) as H1. rewrite Hb in H1.
  destruct (servoMotorTask_cycle_summary EEPROM fuel r
              (set_beenFed false (set_nowDT now g)) Hf)
    as [g' [t2 [H2 [Hact [Hfed _]]]]].
  exists g'. eexists. rewrite (bind_ok _ _ _ _ _ _ H1), H2.
  split; [reflexivity|]. rewrite Hrec in Hact, Hfed. split.
  - rewrite actuator_commands_app, Hact. reflexivity.
  - exact Hfed.
Qed.

(** The cat has been fed; the clock reaches minute 10, second 0 with an
    interval of 5 and the whitelisted tag is read again. *)
Lemma boundary_then_tag_dispenses_witness :
  exists g' tr,
    (resetFeederTask_cycle (mkDateTime 10 0) ;;
     servoMotorTask_cycle scenario_eeprom 47 scenario_reader)
      (set_beenFed true initial_globals) = Ok (tt, g', tr)
    /\ actuator_commands tr = profile_positions
    /\ beenFed g' = true.
Proof.
  apply (boundary_then_tag_dispenses scenario_eeprom 47 (mkDateTime 10 0)
           scenario_reader (set_beenFed true initial_globals)).
  - cbn. lia.
  - unfold valid_time, is_byte. cbn. lia.
  - unfold at_boundary. cbn. split; reflexivity.
  - lia.
  - reflexivity.
Defined.

(** X21: an iteration of [servoMotorTask] is a run of its steps: whenever
    the iteration returns, the task stepping on its own from the poll, with
    the same answer of the reader, is back at the poll after finitely many
    steps with the same globals and the same trace. *)
Theorem servoMotorTask_cycle_is_run_of_steps EEPROM fuel r g g' tr :
  servoMotorTask_cycle EEPROM fuel r g = Ok (tt, g', tr) ->
  exists n, servo_run EEPROM fuel r (S n) AtPoll g = Ok (AtPoll, g', tr).
Proof. apply servo_run_refines_cycle. Qed.

Lemma servoMotorTask_cycle_is_run_of_steps_witness :
  exists n,
    servo_run scenario_eeprom 47 scenario_reader (S n) AtPoll initial_globals
    = Ok (AtPoll, set_beenFed true (set_pos (-1) initial_globals),
          [EepromRead 0; EepromRead 1; EepromRead 2; EepromRead 3]
          ++ SerialPrint "Granted" :: dispense_profile
          ++ [TaskDelay 1000; LcdClear]).
Proof.
  apply (servoMotorTask_cycle_is_run_of_steps scenario_eeprom 47
           scenario_reader initial_globals).
  vm_compute. reflexivity.
Defined.

(** ** [setup] *)

Lemma emitted_app t1 t2 : emitted (t1 ++ t2) = emitted t1 ++ emitted t2.
Proof. apply flat_map_app. Qed.

Lemma tasks_created_app t1 t2 :
  tasks_created (t1 ++ t2) = tasks_created t1 ++ tasks_created t2.
Proof. apply flat_map_app. Qed.

Lemma emitted_map tr : emitted (map Emitted tr) = tr.
Proof.
  induction tr as [|e tr IH]; cbn; [reflexivity|]. f_equal. exact IH.
Qed.

Lemma tasks_created_map tr : tasks_created (map Emitted tr) = [].
Proof. induction tr as [|e tr IH]; cbn; [reflexivity|exact IH]. Qed.

(** X22: [setup] starts the tasks only if the EEPROM could be opened.  When
    [EEPROM.begin] fails it reports the failure on the serial line, reads no
    EEPROM cell and creates no task: the feeder stays inert.  When it
    succeeds it lists the stored users and creates the three tasks,
    [resetFeederTask] and [adjustIntervalTask] on core 1 and [servoMotorTask]
    on core 0.  Either way the globals keep their initial values. *)
Theorem setup_creates_tasks EEPROM fuel eeprom_begin g :
  (15 <= fuel)%nat ->
  exists tr,
    setup EEPROM fuel eeprom_begin g = Ok (tt, g, tr)
    /\ tasks_created tr
       = (if eeprom_begin
          then [(ResetFeeder, 1); (ServoMotor, 0); (AdjustInterval, 1)]
          else [])
    /\ serial_output (emitted tr)
       = (if eeprom_begin
          then SerialPrintln "Loaded stored RFID users:"
               :: flat_map user_line (listed_users EEPROM)
          else [SerialPrintln "Failed to initialize EEPROM"])
    /\ (eeprom_begin = false -> eeprom_reads (emitted tr) = []).
Proof.
  intros Hf. unfold setup. destruct eeprom_begin; cbn [negb].
  - rewrite (loadUIDsFromEEPROM_ok EEPROM fuel g Hf).
    eexists. split; [reflexivity|].
    rewrite !tasks_created_app, tasks_created_map.
    rewrite !emitted_app, emitted_map, !serial_output_app.
    split; [reflexivity|]. split; [|discriminate].
    cbn [emitted flat_map app serial_output filter is_serial].
    rewrite app_nil_r. f_equal. apply load_serial_all.
  - eexists. split; [reflexivity|]. repeat split.
Qed.

Lemma setup_creates_tasks_witness :
  exists tr,
    setup scenario_eeprom 15 false initial_globals
      = Ok (tt, initial_globals, tr)
    /\ tasks_created tr = []
    /\ serial_output (emitted tr)
       = [SerialPrintln "Failed to initialize EEPROM"]
    /\ (false = false -> eeprom_reads (emitted tr) = []).
Proof.
  apply (setup_creates_tasks scenario_eeprom 15 false initial_globals).
  lia.
Defined.
